(** * ocp-what-merged: a model of [main.go] and the properties of its pipeline

    The program lists the repositories of a release payload, fetches the
    recent commits of each of them, filters and cleans the commit messages
    and prints the changes oldest first.  This file embeds the functions of
    [main.go] and states the properties of the specification about them.

    Go strings are sequences of bytes: a [gostring] is a list of 8-bit
    characters, [len] is [length], and [s[a:b]] is [firstn]/[skipn]. *)

From Stdlib Require Import List ZArith Lia Ascii String Bool Permutation Sorted.
From stdpp Require Import base gmap strings list.
Import ListNotations.

Local Open Scope nat_scope.

Abbreviation gostring := (list ascii).

(** A string literal of the source. *)
Definition str (s : string) : gostring := list_ascii_of_string s.

(** The numeric value of a byte. *)
Definition byte_val (c : ascii) : Z := Z.of_N (N_of_ascii c).

(** [s[i]] as a number; reading past the end gives 0 (the model never does). *)
Definition byteAt (s : gostring) (i : nat) : Z := byte_val (nth i s Ascii.zero).

(** ** Package [unicode/utf8]: decoding one character

    [strings.TrimSpace] trims white space "as defined by Unicode", so it
    decodes UTF-8 as soon as it meets a byte outside ASCII.  A rune is a
    number; bytes that are not valid UTF-8 decode to [RuneError] with
    width 1. *)

Module utf8.

Definition RuneError : Z := 0xFFFD.
Definition RuneSelf : Z := 0x80.
Definition UTFMax : nat := 4.

(** The table [first] together with [acceptRanges]: what the first byte
    of a sequence says about it. [Lead sz lo hi]: a sequence of [sz]
    bytes whose second byte lies in [lo..hi]. *)
Inductive first_info :=
| ASCII
| Invalid
| Lead (sz : nat) (lo hi : Z).

Definition first (b : Z) : first_info :=
  (if b <? 0x80 then ASCII
   else if b <? 0xC2 then Invalid
   else if b <? 0xE0 then Lead 2 0x80 0xBF
   else if b =? 0xE0 then Lead 3 0xA0 0xBF
   else if b <? 0xED then Lead 3 0x80 0xBF
   else if b =? 0xED then Lead 3 0x80 0x9F
   else if b <? 0xF0 then Lead 3 0x80 0xBF
   else if b =? 0xF0 then Lead 4 0x90 0xBF
   else if b <? 0xF4 then Lead 4 0x80 0xBF
   else if b =? 0xF4 then Lead 4 0x80 0x8F
   else Invalid)%Z.

Definition locb : Z := 0x80.
Definition hicb : Z := 0xBF.
Definition maskx : Z := 0x3F.
Definition mask2 : Z := 0x1F.
Definition mask3 : Z := 0x0F.
Definition mask4 : Z := 0x07.

(** [utf8.DecodeRuneInString(s)]: the first rune of [s] and its width. *)
Definition DecodeRuneInString (s : gostring) : Z * nat :=
  match s with
  | [] => (RuneError, 0)
  | c0 :: _ =>
      let s0 := byte_val c0 in
      match first s0 with
      | ASCII => (s0, 1)
      | Invalid => (RuneError, 1)
      | Lead sz lo hi =>
          if length s <? sz then (RuneError, 1) else
          let s1 := byteAt s 1 in
          if ((s1 <? lo) || (hi <? s1))%Z then (RuneError, 1) else
          if sz <=? 2 then
            (Z.lor (Z.shiftl (Z.land s0 mask2) 6) (Z.land s1 maskx), 2)
          else
          let s2 := byteAt s 2 in
          if ((s2 <? locb) || (hicb <? s2))%Z then (RuneError, 1) else
          if sz <=? 3 then
            (Z.lor (Z.lor (Z.shiftl (Z.land s0 mask3) 12)
                          (Z.shiftl (Z.land s1 maskx) 6))
                   (Z.land s2 maskx), 3)
          else
          let s3 := byteAt s 3 in
          if ((s3 <? locb) || (hicb <? s3))%Z then (RuneError, 1) else
            (Z.lor (Z.lor (Z.lor (Z.shiftl (Z.land s0 mask4) 18)
                                 (Z.shiftl (Z.land s1 maskx) 12))
                          (Z.shiftl (Z.land s2 maskx) 6))
                   (Z.land s3 maskx), 4)
      end
  end.

(** [utf8.RuneStart(b)]: [b] is not a continuation byte. *)
Definition RuneStart (b : Z) : bool := negb (Z.land b 0xC0 =? 0x80)%Z.

(** The backward search of [DecodeLastRuneInString]:
    [for start--; start >= lim; start-- { if RuneStart(s[start]) { break } }]
    with [n] indices left to look at.  When none is a rune start the loop
    leaves [lim - 1], and Go then replaces a negative [start] by 0: on
    natural numbers the truncated subtraction does both. *)
Fixpoint lastStart (s : gostring) (n start : nat) : nat :=
  match n with
  | 0 => start
  | S n' => if RuneStart (byteAt s start) then start
            else lastStart s n' (start - 1)
  end.

(** [utf8.DecodeLastRuneInString(s)]: the last rune of [s] and its width. *)
Definition DecodeLastRuneInString (s : gostring) : Z * nat :=
  let end_ := length s in
  if end_ =? 0 then (RuneError, 0) else
  let r := byteAt s (end_ - 1) in
  if (r <? RuneSelf)%Z then (r, 1) else
  let lim := end_ - UTFMax in
  let start := lastStart s (end_ - 1 - lim) (end_ - 2) in
  let '(r, size) := DecodeRuneInString (skipn start s) in
  if start + size =? end_ then (r, size) else (RuneError, 1).

(** [utf8.RuneCountInString(s)]: the number of characters of [s], every
    invalid byte counting for one.  Each rune takes at least one byte, so
    [length s] rounds are enough. *)
Fixpoint RuneCount_loop (fuel : nat) (s : gostring) : nat :=
  match fuel with
  | 0 => 0
  | S fuel' =>
      match s with
      | [] => 0
      | _ :: _ => S (RuneCount_loop fuel' (skipn (snd (DecodeRuneInString s)) s))
      end
  end.

Definition RuneCountInString (s : gostring) : nat := RuneCount_loop (length s) s.

End utf8.

(** ** Package [unicode] *)

Module unicode.

(** [unicode.IsSpace(r)]: the Latin-1 white space, then the rest of the
    [White_Space] table. *)
Definition IsSpace (r : Z) : bool :=
  (if (0 <=? r) && (r <=? 0xFF) then
     (r =? 0x09) || (r =? 0x0A) || (r =? 0x0B) || (r =? 0x0C) || (r =? 0x0D)
     || (r =? 0x20) || (r =? 0x85) || (r =? 0xA0)
   else
     (r =? 0x1680) || ((0x2000 <=? r) && (r <=? 0x200A))
     || (r =? 0x2028) || (r =? 0x2029) || (r =? 0x202F) || (r =? 0x205F)
     || (r =? 0x3000))%Z.

End unicode.

(** ** The functions of package [strings] that the program calls *)

Module strings.

(** [strings.HasPrefix(s, prefix)] *)
Fixpoint HasPrefix (s prefix : gostring) : bool :=
  match prefix, s with
  | [], _ => true
  | p :: prefix', c :: s' => Ascii.eqb c p && HasPrefix s' prefix'
  | _ :: _, [] => false
  end.

(** [strings.TrimPrefix(s, prefix)]: [s] without the leading [prefix],
    [s] itself when it does not start with it. *)
Definition TrimPrefix (s prefix : gostring) : gostring :=
  if HasPrefix s prefix then skipn (length prefix) s else s.

(** [strings.Index(s, substr)]: the index of the first instance of
    [substr] in [s]; [None] stands for Go's -1. *)
Fixpoint Index (s substr : gostring) : option nat :=
  if HasPrefix s substr then Some 0
  else match s with
       | [] => None
       | _ :: s' => option_map S (Index s' substr)
       end.

(** [strings.Contains(s, substr)] is [Index(s, substr) >= 0]. *)
Definition Contains (s substr : gostring) : bool :=
  match Index s substr with Some _ => true | None => false end.

(** [strings.Count(s, substr)] for a non-empty [substr]: the number of
    non-overlapping instances, found by repeated [Index].  Every round
    consumes at least one byte, so [length s] rounds are enough. *)
Fixpoint Count_loop (fuel : nat) (s substr : gostring) : nat :=
  match fuel with
  | 0 => 0
  | S fuel' =>
      match Index s substr with
      | None => 0
      | Some i => S (Count_loop fuel' (skipn (i + length substr) s) substr)
      end
  end.

Definition Count (s substr : gostring) : nat := Count_loop (length s) s substr.

(** The loop of [genSplit]: [n] is the number of separators still to be
    cut at. *)
Fixpoint genSplit_loop (n : nat) (s sep : gostring) : list gostring :=
  match n with
  | 0 => [s]
  | S n' =>
      match Index s sep with
      | None => [s]
      | Some m => firstn m s :: genSplit_loop n' (skipn (m + length sep) s) sep
      end
  end.

(** [strings.Split(s, sep)] for a non-empty separator (the program only
    splits at ["/"] and at a newline): [Count(s, sep) + 1] pieces. *)
Definition Split (s sep : gostring) : list gostring :=
  genSplit_loop (Count s sep) s sep.

(** [strings.Join(elems, sep)] *)
Fixpoint Join (elems : list gostring) (sep : gostring) : gostring :=
  match elems with
  | [] => []
  | [a] => a
  | a :: rest => a ++ sep ++ Join rest sep
  end.

(** [indexFunc(s, f, truth)]: the byte index of the first rune [r] with
    [f(r) == truth]; the loop is [for i, r := range s]. *)
Fixpoint indexFunc_loop (fuel : nat) (s : gostring) (f : Z -> bool)
         (truth : bool) (i : nat) : option nat :=
  match fuel with
  | 0 => None
  | S fuel' =>
      if length s <=? i then None
      else
        let '(r, size) := utf8.DecodeRuneInString (skipn i s) in
        if Bool.eqb (f r) truth then Some i
        else indexFunc_loop fuel' s f truth (i + size)
  end.

Definition indexFunc (s : gostring) (f : Z -> bool) (truth : bool) : option nat :=
  indexFunc_loop (length s) s f truth 0.

(** [lastIndexFunc(s, f, truth)]: the same from the end, one
    [DecodeLastRuneInString(s[0:i])] per round. *)
Fixpoint lastIndexFunc_loop (fuel : nat) (s : gostring) (f : Z -> bool)
         (truth : bool) (i : nat) : option nat :=
  match fuel with
  | 0 => None
  | S fuel' =>
      if i =? 0 then None
      else
        let '(r, size) := utf8.DecodeLastRuneInString (firstn i s) in
        let i := i - size in
        if Bool.eqb (f r) truth then Some i
        else lastIndexFunc_loop fuel' s f truth i
  end.

Definition lastIndexFunc (s : gostring) (f : Z -> bool) (truth : bool) : option nat :=
  lastIndexFunc_loop (length s) s f truth (length s).

(** [strings.TrimLeftFunc(s, f)] *)
Definition TrimLeftFunc (s : gostring) (f : Z -> bool) : gostring :=
  match indexFunc s f false with
  | None => []
  | Some i => skipn i s
  end.

(** [strings.TrimRightFunc(s, f)] *)
Definition TrimRightFunc (s : gostring) (f : Z -> bool) : gostring :=
  match lastIndexFunc s f false with
  | Some i =>
      if (utf8.RuneSelf <=? byteAt s i)%Z
      then firstn (i + snd (utf8.DecodeRuneInString (skipn i s))) s
      else firstn (i + 1) s
  | None => firstn 0 s
  end.

(** [strings.TrimFunc(s, f)] *)
Definition TrimFunc (s : gostring) (f : Z -> bool) : gostring :=
  TrimRightFunc (TrimLeftFunc s f) f.

(** The table [asciiSpace]. *)
Definition asciiSpace (c : Z) : bool :=
  ((c =? 0x09) || (c =? 0x0A) || (c =? 0x0B) || (c =? 0x0C) || (c =? 0x0D)
   || (c =? 0x20))%Z.

(** The second loop of [TrimSpace], on [s = s0[start:]]: [stop] goes down
    from the end to the last byte that is not an ASCII space. *)
Fixpoint TrimSpace_stop (s : gostring) (stop : nat) : gostring :=
  match stop with
  | 0 => firstn 0 s
  | S stop' =>
      let c := byteAt s stop' in
      if (utf8.RuneSelf <=? c)%Z then TrimRightFunc (firstn stop s) unicode.IsSpace
      else if asciiSpace c then TrimSpace_stop s stop'
      else firstn stop s
  end.

(** [strings.TrimSpace(s)]: the first loop skips the leading ASCII
    spaces; a byte outside ASCII hands over to the Unicode functions. *)
Fixpoint TrimSpace (s : gostring) : gostring :=
  match s with
  | [] => []
  | c :: s' =>
      if (utf8.RuneSelf <=? byte_val c)%Z then TrimFunc s unicode.IsSpace
      else if asciiSpace (byte_val c) then TrimSpace s'
      else TrimSpace_stop s (length s)
  end.

End strings.

(** ** [parseRepositoryOrgName] *)

Definition github_prefix : gostring := str "https://github.com/".

(** The Go function returns [(organization, name, ok)]; [None] is
    [("", "", false)]. *)
Definition parseRepositoryOrgName (repository : gostring) : option (gostring * gostring) :=
  if negb (strings.HasPrefix repository github_prefix) then None
  else
    let parts := strings.Split (strings.TrimPrefix repository github_prefix) (str "/") in
    match parts with
    | [p0; p1] => Some (p0, p1)
    | _ => None
    end.

(** ** Package [time]

    An instant is a number of nanoseconds, of any size: the limits of
    [time.Time] itself are far from any date of a commit.  A [Duration] is
    a 64-bit signed number of nanoseconds, so that its negation wraps
    around. *)

Module time.

Definition Time := Z.
Definition Duration := Z.

Definition wrap64 (z : Z) : Z := ((z + 2 ^ 63) mod 2 ^ 64 - 2 ^ 63)%Z.

(** [-d] on a [Duration] *)
Definition neg (d : Duration) : Duration := wrap64 (- d).

(** [t.Add(d)] *)
Definition Add (t : Time) (d : Duration) : Time := (t + d)%Z.

(** [t.After(u)] *)
Definition After (t u : Time) : bool := (u <? t)%Z.

(** [time.Time{}], the zero instant: January 1, year 1. *)
Definition zero : Time := (-62135596800 * 1000000000)%Z.

End time.

(** ** Errors *)

Inductive error :=
| errUnparsable (repository : gostring)
    (** [fmt.Errorf("unable to parse repository organization or name: %q", repository)] *)
| errExternal (msg : gostring)
    (** an error value made by a library: the API client, the sub-process,
        the JSON decoder *).

(** ** Package [github]: the part of the API types that the program reads

    The commits and their fields are pointers in Go, and the getters answer
    the zero value on [nil]: a missing commit or field is [None]. *)

Module github.

Record CommitAuthor := { Date : option time.Time }.

Record Commit := {
  Message : option gostring;
  Committer : option CommitAuthor;
}.

Record RepositoryCommit := {
  HTMLURL : option gostring;
  Commit_ : option Commit;
}.

Record CommitsListOptions := {
  SHA : gostring;
  Since : time.Time;
}.

Definition GetHTMLURL (c : option RepositoryCommit) : gostring := default [] (c ≫= HTMLURL).
Definition GetCommit (c : option RepositoryCommit) : option Commit := c ≫= Commit_.
Definition GetMessage (c : option Commit) : gostring := default [] (c ≫= Message).
Definition GetCommitter (c : option Commit) : option CommitAuthor := c ≫= Committer.
Definition GetDate (a : option CommitAuthor) : time.Time := default time.zero (a ≫= Date).

End github.

(** ** The types of [main.go] *)

Record Tag := {
  Name : gostring;
  Annotations : gmap gostring gostring;
}.

Record ReferencesSpec := { Tags : list Tag }.
Record References := { Spec : ReferencesSpec }.
Record Release := { Refs : References }.

Record Change := {
  URL : gostring;
  Message : gostring;
  Time : gostring;
  repository : gostring;
  originalTime : time.Time;
}.

Record ProcessOptions := {
  Concurrency : Z;
  Since : time.Duration;
  BranchName : gostring;
}.

(** ** What the program does not own

    The remote API, the release-inspection tool and the rendering of
    relative times are outside the program: a [World] fixes their answers.
    [humanize.Time] reads the clock by itself, a moment after the task did;
    the model hands it the reading of the task. *)

Record World := {
  (** [client.Repositories.ListCommits(ctx, organization, name, opts)] *)
  ListCommits : gostring -> gostring -> github.CommitsListOptions ->
                list (option github.RepositoryCommit) + error;
  (** [humanize.Time(t)] at wall-clock time [now] *)
  humanize_Time : time.Time -> time.Time -> gostring;
  (** [oc adm release info <payload> --commit-urls -o json], decoded by
      [json.Unmarshal] into a [Release] *)
  release_info : gostring -> Release + error;
}.

(** One line of [log.Printf("[%s] %v", repository, err)]. *)
Record LogLine := {
  log_repository : gostring;
  log_err : error;
}.

(** One call of [ListCommits], with the wall-clock time at which it was made. *)
Record Request := {
  req_at : time.Time;
  req_organization : gostring;
  req_name : gostring;
  req_opts : github.CommitsListOptions;
}.

(** The state that the run reads and writes: the wall clock, the log, the
    API calls made so far, and the slice [changes] of [processRepositories]
    that all the tasks append to under [commitsLock]. *)
Record State := {
  clock : time.Time;
  log : list LogLine;
  requests : list Request;
  changes : list Change;
}.

Definition initial (t0 : time.Time) : State :=
  {| clock := t0; log := []; requests := []; changes := [] |}.

Definition set_clock (t : time.Time) (st : State) : State :=
  {| clock := t; log := log st; requests := requests st; changes := changes st |}.

Definition log_Printf (repository : gostring) (err : error) (st : State) : State :=
  {| clock := clock st; log := log st ++ [{| log_repository := repository; log_err := err |}];
     requests := requests st; changes := changes st |}.

Definition record_request (r : Request) (st : State) : State :=
  {| clock := clock st; log := log st;
     requests := requests st ++ [r]; changes := changes st |}.

Definition set_changes (cs : list Change) (st : State) : State :=
  {| clock := clock st; log := log st; requests := requests st; changes := cs |}.

(** ** [getRepositoryChanges] *)

Definition getRepositoryChanges (w : World) (repository : gostring)
           (options : ProcessOptions) (st : State)
  : (list (option github.RepositoryCommit) + error) * State :=
  match parseRepositoryOrgName repository with
  | None => (inr (errUnparsable repository), st)
  | Some (organization, name) =>
      let opts := {| github.SHA := BranchName options;
                     github.Since := time.Add (clock st) (time.neg (Since options)) |} in
      let st := record_request {| req_at := clock st; req_organization := organization;
                                  req_name := name; req_opts := opts |} st in
      match ListCommits w organization name opts with
      | inr err => (inl [], log_Printf repository err st)
      | inl commits => (inl commits, st)
      end
  end.

(** ** [isMergeCommit] and [sanitizeMessage] *)

Definition isMergeCommit (commit : option github.Commit) : bool :=
  strings.Contains (github.GetMessage commit) (str "Merge pull request").

Definition newline : gostring := ["010"%char].

(** One round of the loop of [sanitizeMessage]: [r] is the slice of kept
    lines, [l] the current line. *)
Definition sanitizeMessage_step (r : list gostring) (l : gostring) : list gostring :=
  if strings.Contains l (str "Signed-off-by") || (length (strings.TrimSpace l) =? 0)
  then r
  else
    let l := if 80 <? length l then firstn 80 l ++ str " ..." else l in
    r ++ [strings.TrimSpace l].

Definition sanitizeMessage (msg : gostring) : gostring :=
  let lines := strings.Split msg newline in
  let r := fold_left sanitizeMessage_step lines [] in
  strings.Join r newline.

(** ** Package [workpool] (github.com/xxjwxc/gowp)

    Modelled from the spec: the pool is a library, not a part of the
    repository.  Sections 4.5 and 5 of the specification give its
    scheduling, a fixed pool of [max] workers and a queue for the tasks
    that wait; its use in [processRepositories] gives the rest: a task
    returns an error or [nil], and [Wait] returns an error that the caller
    hands on.  So [New(max)] starts [max] workers (at least one) that take
    the queued tasks in the order of [Do]; a task that returns an error
    closes the pool, so that the tasks not yet started are dropped, and
    [Wait] returns that first error once the workers are done.

    Only the result of a run is modelled, not its timing.  The tasks share
    nothing but the slice they append to, under the lock, at their very
    end, and the clock they read: a run is therefore the tasks taken one
    after the other in the order in which they finish, each with its own
    reading of the clock.  A schedule says, round after round, which of the
    tasks in flight finishes next, and how long after the start of the run
    that task read the clock; the readings need not be ordered along the
    schedule, as a task that started early may finish late.  The tasks in
    flight are among the first [max] of the queue.  What the tasks still in
    flight write after a first error is left out: the caller drops the
    state of a failed run. *)

Module workpool.

Definition TaskHandler := State -> option error * State.

Record Step := {
  pick : nat;     (** which of the tasks in flight finishes next *)
  started : nat;  (** when it read the clock, in nanoseconds after the start *)
}.

Definition Schedule := list Step.

Record WorkPool := {
  workers : nat;
  waitingQueue : list TaskHandler;
}.

Definition New (max : Z) : WorkPool :=
  {| workers := Z.to_nat (Z.max 1 max); waitingQueue := [] |}.

Definition Do (p : WorkPool) (fn : TaskHandler) : WorkPool :=
  {| workers := workers p; waitingQueue := waitingQueue p ++ [fn] |}.

Definition next (sched : Schedule) : Step * Schedule :=
  match sched with
  | [] => ({| pick := 0; started := 0 |}, [])
  | s :: sched' => (s, sched')
  end.

(** [n] rounds of a pool with [k] workers over the queue [pending], in a
    run started at [start]. *)
Fixpoint run (n k : nat) (pending : list TaskHandler) (sched : Schedule)
         (start : time.Time) (st : State) : option error * State :=
  match n with
  | 0 => (None, st)
  | S n' =>
      match pending with
      | [] => (None, st)
      | t0 :: _ =>
          let '(step, sched') := next sched in
          let i := pick step mod (Nat.min k (length pending)) in
          match nth i pending t0 (set_clock (start + Z.of_nat (started step))%Z st) with
          | (Some err, st') => (Some err, st')
          | (None, st') =>
              run n' k (firstn i pending ++ skipn (S i) pending) sched' start st'
          end
      end
  end.

Definition Wait (p : WorkPool) (sched : Schedule) (st : State) : option error * State :=
  run (length (waitingQueue p)) (workers p) (waitingQueue p) sched (clock st) st.

End workpool.

(** ** [sort.Slice]

    The standard library promises a sorted permutation, not a stable one,
    for a [less] that is a strict weak order; which algorithm runs depends
    on the length of the slice and on the version of Go.  The program is
    modelled over any function that keeps this promise. [less] is given on
    the elements, [less (x[i]) (x[j])] standing for Go's [less(i, j)]. *)

Class SliceSorter := {
  sort_Slice : forall {A : Type}, list A -> (A -> A -> bool) -> list A;
  sort_Slice_Permutation :
    forall (A : Type) (x : list A) (less : A -> A -> bool),
      Permutation x (sort_Slice x less);
  sort_Slice_sorted :
    forall (A : Type) (x : list A) (less : A -> A -> bool),
      (forall a b, less a b = true -> less b a = false) ->
      (forall a b c, less a b = false -> less b c = false -> less a c = false) ->
      StronglySorted (fun a b => less b a = false) (sort_Slice x less);
}.

(** The insertion sort that [sort.Slice] runs on short slices:
    [for i := a + 1; i < b; i++ { for j := i; j > a && less(j, j-1); j-- { swap(j, j-1) } }].
    The sorted part is kept in reverse, its last element first. *)
Fixpoint insert_back {A : Type} (less : A -> A -> bool) (x : A) (rsorted : list A) : list A :=
  match rsorted with
  | [] => [x]
  | y :: rest => if less x y then y :: insert_back less x rest else x :: rsorted
  end.

Definition insertionSort {A : Type} (x : list A) (less : A -> A -> bool) : list A :=
  rev (fold_left (fun rsorted a => insert_back less a rsorted) x []).

(** ** [processRepositories] *)

(** The loop over the commits of one repository. *)
Definition change_step (w : World) (now : time.Time) (repository : gostring)
           (change : list Change) (c : option github.RepositoryCommit) : list Change :=
  if isMergeCommit (github.GetCommit c) then change
  else
    change ++ [{| repository := repository;
                  URL := github.GetHTMLURL c;
                  Message := sanitizeMessage (github.GetMessage (github.GetCommit c));
                  Time := humanize_Time w now
                            (github.GetDate (github.GetCommitter (github.GetCommit c)));
                  originalTime := github.GetDate (github.GetCommitter (github.GetCommit c)) |}].

(** The task of one repository. *)
Definition task (w : World) (options : ProcessOptions) (repository : gostring)
  : workpool.TaskHandler :=
  fun st =>
    match getRepositoryChanges w repository options st with
    | (inr err, st) => (Some err, st)
    | (inl result, st) =>
        let change := fold_left (change_step w (clock st) repository) result [] in
        (None, set_changes (changes st ++ change) st)
    end.

(** [less] of the final sort: [changes[j].originalTime.After(changes[i].originalTime)]. *)
Definition less_change (ci cj : Change) : bool :=
  time.After (originalTime cj) (originalTime ci).

Definition processRepositories `{SliceSorter} (w : World) (options : ProcessOptions)
           (repositories : list gostring) (sched : workpool.Schedule) (st : State)
  : (list Change + error) * State :=
  let wp := workpool.New (Concurrency options) in
  let st := set_changes [] st in
  let tasks := fold_left (fun tasks repository => tasks ++ [task w options repository])
                         repositories [] in
  let wp := fold_left workpool.Do tasks wp in
  match workpool.Wait wp sched st with
  | (Some err, st) => (inr err, st)
  | (None, st) =>
      let sorted := sort_Slice (changes st) less_change in
      (inl sorted, set_changes sorted st)
  end.

(** ** [getRepositoriesFromPayload] *)

Definition source_location : gostring := str "io.openshift.build.source-location".

(** One round of the loop over the tags. *)
Definition payload_step (repositories : list gostring) (t : Tag) : list gostring :=
  match Annotations t !! source_location with
  | None => repositories
  | Some sourceLocation =>
      if length sourceLocation =? 0 then repositories
      else
        let hasRepository := existsb (fun r => bool_decide (sourceLocation = r)) repositories in
        if negb hasRepository then repositories ++ [sourceLocation] else repositories
  end.

Definition getRepositoriesFromPayload (w : World) (payload : gostring)
  : list gostring + error :=
  match release_info w payload with
  | inr err => inr err
  | inl release => inl (fold_left payload_step (Tags (Spec (Refs release))) [])
  end.

(** ** Definitions that the statements and the proofs use *)

(** Splitting at one byte, by recursion on the string: what
    [strings.Split] computes when the separator is a single byte. *)
Fixpoint splitc (c : ascii) (s : gostring) : list gostring :=
  match s with
  | [] => [[]]
  | x :: t =>
      if Ascii.eqb x c then [] :: splitc c t
      else match splitc c t with
           | h :: r => (x :: h) :: r
           | [] => [[x]]
           end
  end.

(** The lines of a text: the pieces between the newlines; the empty text
    has no line. *)
Definition Lines (s : gostring) : list gostring :=
  match s with
  | [] => []
  | _ :: _ => strings.Split s newline
  end.

(** The specification's reading of "parsable": the host prefix, then
    exactly two segments, none of them empty. *)
Definition two_nonempty_segments (repository : gostring) : Prop :=
  strings.HasPrefix repository github_prefix = true /\
  exists p0 p1,
    strings.Split (strings.TrimPrefix repository github_prefix) (str "/") = [p0; p1]
    /\ p0 <> [] /\ p1 <> [].

(** A continuation byte of UTF-8. *)
Definition cont (b : Z) : Prop := (0x80 <= b <= 0xBF)%Z.

(** [s] starts with a well-formed sequence of [n >= 2] bytes that encodes
    [r]: a leading byte, continuation bytes, and the same result whatever
    follows the sequence. *)
Definition valid_multi (s : gostring) (r : Z) (n : nat) : Prop :=
  (0xC2 <= byteAt s 0)%Z /\ 2 <= n <= 4 /\ n <= length s /\
  (forall k, 1 <= k < n -> cont (byteAt s k)) /\
  (forall b, utf8.DecodeRuneInString (firstn n s ++ b) = (r, n)).

(** The first, the last character of [x] is not white space. *)
Definition front_ok (x : gostring) : Prop :=
  x <> [] /\ unicode.IsSpace (fst (utf8.DecodeRuneInString x)) = false.

Definition back_ok (x : gostring) : Prop :=
  x <> [] /\ unicode.IsSpace (fst (utf8.DecodeLastRuneInString x)) = false.

(** Where the backward scan of [lastIndexFunc] can stand in [z]: at the
    end, or before a byte that starts a character. *)
Definition scan_pos (z : gostring) (e : nat) : Prop :=
  e = length z \/ ~ cont (byteAt z e).

(** A line that the sanitizer has nothing to do on, the length being
    counted in bytes, as [len] does. *)
Definition sanitized_line (l : gostring) : Prop :=
  strings.Contains l (str "Signed-off-by") = false
  /\ strings.TrimSpace l <> []
  /\ length l <= 80
  /\ strings.TrimSpace l = l.

(** The same, the length being counted in characters. *)
Definition sanitized_line_chars (l : gostring) : Prop :=
  strings.Contains l (str "Signed-off-by") = false
  /\ strings.TrimSpace l <> []
  /\ utf8.RuneCountInString l <= 80
  /\ strings.TrimSpace l = l.

(** A line of 41 two-byte characters (e with an acute accent): 82 bytes. *)
Definition accented_line : gostring :=
  concat (repeat [ascii_of_nat 195; ascii_of_nat 169] 41).

(** A line of 82 bytes whose bytes 80 and 81 are one character. *)
Definition straddling_line : gostring :=
  repeat "a"%char 79 ++ [ascii_of_nat 195; ascii_of_nat 169; "b"%char].

(** The non-empty values of the source-location annotation, tag after tag. *)
Definition source_locations (tags : list Tag) : list gostring :=
  flat_map (fun t => match Annotations t !! source_location with
                     | Some v => if length v =? 0 then [] else [v]
                     | None => []
                     end) tags.

(** The specification's "de-duplicated, order of first appearance": every
    value is kept where it occurs first, and dropped everywhere after. *)
Fixpoint first_occurrences (l : list gostring) : list gostring :=
  match l with
  | [] => []
  | x :: l' => x :: List.filter (fun y => negb (bool_decide (y = x))) (first_occurrences l')
  end.

(** [x] is not yet in the slice [acc]. *)
Definition fresh (acc : list gostring) (x : gostring) : bool :=
  negb (existsb (fun r => bool_decide (x = r)) acc).

(** What the task of [repository] appends to the shared slice, and what it
    logs, when it runs at wall-clock time [now]. *)
Definition task_changes (w : World) (options : ProcessOptions) (now : time.Time)
           (repository : gostring) : list Change :=
  changes (snd (task w options repository (initial now))).

Definition task_log (w : World) (options : ProcessOptions) (now : time.Time)
           (repository : gostring) : list LogLine :=
  log (snd (task w options repository (initial now))).

(** The changes, and the log lines, of a sequence of fetches, each one
    given by the time it runs at and by its repository. *)
Definition changes_at (w : World) (options : ProcessOptions)
           (runs : list (time.Time * gostring)) : list Change :=
  flat_map (fun p => task_changes w options (fst p) (snd p)) runs.

Definition logs_at (w : World) (options : ProcessOptions)
           (runs : list (time.Time * gostring)) : list LogLine :=
  flat_map (fun p => task_log w options (fst p) (snd p)) runs.

(** The request that the fetch of [repository] makes at time [now]. *)
Definition request_at (options : ProcessOptions) (now : time.Time)
           (organization name : gostring) : Request :=
  {| req_at := now; req_organization := organization; req_name := name;
     req_opts := {| github.SHA := BranchName options;
                    github.Since := time.Add now (time.neg (Since options)) |} |}.

(** Oldest first. *)
Definition oldest_first (cs : list Change) : Prop :=
  StronglySorted (fun a b => (originalTime a <= originalTime b)%Z) cs.

(** What a call of [ListCommits] made at [req_at] must ask for, in a run
    started at [t0]. *)
Definition request_ok (options : ProcessOptions) (t0 : time.Time) (r : Request) : Prop :=
  github.SHA (req_opts r) = BranchName options
  /\ github.Since (req_opts r) = (req_at r - Since options)%Z
  /\ (t0 <= req_at r)%Z.

(** ** A small world for the examples

    Three repositories: [api] has two commits, one of them a merge; [oc]
    has one; every other name is unknown to the remote.  [payload_tags]
    names [api] twice. *)

Definition commit_at (url message : string) (t : time.Time)
  : option github.RepositoryCommit :=
  Some {| github.HTMLURL := Some (str url);
          github.Commit_ :=
            Some {| github.Message := Some (str message);
                    github.Committer := Some {| github.Date := Some t |} |} |}.

Definition repo_api : gostring := str "https://github.com/openshift/api".
Definition repo_oc : gostring := str "https://github.com/openshift/oc".
Definition repo_gone : gostring := str "https://github.com/openshift/gone".
Definition repo_ssh : gostring := str "git@github.com:openshift/origin.git".

Definition tag_of (name : string) (location : gostring) : Tag :=
  {| Name := str name; Annotations := {[ source_location := location ]} |}.

Definition payload_tags : list Tag :=
  [ tag_of "api" repo_api;
    {| Name := str "base"; Annotations := ∅ |};
    tag_of "oc" repo_oc;
    tag_of "empty" [];
    tag_of "api-again" repo_api ].

Definition example_world : World :=
  {| ListCommits := fun organization name opts =>
       if bool_decide (name = str "api") then
         inl [commit_at "https://github.com/openshift/api/commit/2" "Add a field" 300%Z;
              commit_at "https://github.com/openshift/api/commit/1"
                        "Merge pull request #7 from someone/branch" 100%Z]
       else if bool_decide (name = str "oc") then
         inl [commit_at "https://github.com/openshift/oc/commit/9" "Fix a flag" 200%Z]
       else inr (errExternal (str "404 Not Found"));
     humanize_Time := fun _ _ => str "some time ago";
     release_info := fun _ =>
       inl {| Refs := {| Spec := {| Tags := payload_tags |} |} |} |}.

Definition example_options : ProcessOptions :=
  {| Concurrency := 10%Z; Since := 86400000000000%Z; BranchName := str "master" |}.

(** The tasks finish in the order of the queue; the first one read the
    clock 5 nanoseconds after the start, the second one 12. *)
Definition example_schedule : workpool.Schedule :=
  [ {| workpool.pick := 0; workpool.started := 5 |};
    {| workpool.pick := 0; workpool.started := 12 |} ].

(** ** [main]

    The flags, once parsed, and what the process finds around it: the
    token of the environment and the duration parser of package
    [str2duration]. *)

Definition defaultPayload : gostring :=
  str "quay.io/openshift-release-dev/ocp-release:4.9.0-fc.0-x86_64".

Record Flags := {
  since_flag : gostring;
  branch_flag : gostring;
  payload_flag : gostring;
}.

(** The values that [flag.Parse] leaves when no flag is given. *)
Definition default_flags : Flags :=
  {| since_flag := str "1d"; branch_flag := str "master"; payload_flag := defaultPayload |}.

Record Process := {
  (** [os.Getenv("GITHUB_TOKEN")], empty when the variable is not set *)
  GITHUB_TOKEN : gostring;
  (** [str2duration.ParseDuration(since)] *)
  ParseDuration : gostring -> time.Duration + error;
}.

(** How [main] ends: one of its three fatal logs, or the printed table. *)
Inductive Exit :=
| fatal_no_token
    (** [log.Fatal(":-( I need you to set GITHUB_TOKEN ...")] *)
| fatal_duration (since : gostring)
    (** [log.Fatalf(":-( I am unable to parse duration %q", since)] *)
| fatal_error (err : error)
    (** [log.Fatal(err)] *)
| printed (rows : list Change)
    (** [printer.Print(changes)] *).

(** What a run of [main] leaves: its end, the arguments of its
    "Processing %d repositories ..." log line if it got that far, and the
    state. *)
Record MainResult := {
  exit : Exit;
  announced : option (nat * gostring * time.Duration);
  final : State;
}.

Definition main `{SliceSorter} (w : World) (p : Process) (f : Flags)
           (sched : workpool.Schedule) (st : State) : MainResult :=
  if length (GITHUB_TOKEN p) =? 0
  then {| exit := fatal_no_token; announced := None; final := st |}
  else
    let processOptions := {| Concurrency := 10%Z; Since := 0%Z; BranchName := [] |} in
    let parsed :=
      if 0 <? length (since_flag f) then
        match ParseDuration p (since_flag f) with
        | inl d => Some {| Concurrency := Concurrency processOptions; Since := d;
                           BranchName := BranchName processOptions |}
        | inr _ => None
        end
      else Some processOptions in
    match parsed with
    | None => {| exit := fatal_duration (since_flag f); announced := None; final := st |}
    | Some processOptions =>
        let processOptions :=
          if 0 <? length (branch_flag f) then
            {| Concurrency := Concurrency processOptions; Since := Since processOptions;
               BranchName := branch_flag f |}
          else processOptions in
        match getRepositoriesFromPayload w (payload_flag f) with
        | inr err => {| exit := fatal_error err; announced := None; final := st |}
        | inl repos =>
            let line := Some (length repos, BranchName processOptions, Since processOptions) in
            match processRepositories w processOptions repos sched st with
            | (inr err, st') => {| exit := fatal_error err; announced := line; final := st' |}
            | (inl changes, st') => {| exit := printed changes; announced := line; final := st' |}
            end
        end
    end.

(** The options that [main] builds from the flags when the duration is [d]. *)
Definition main_options (f : Flags) (d : time.Duration) : ProcessOptions :=
  {| Concurrency := 10%Z; Since := d;
     BranchName := if 0 <? length (branch_flag f) then branch_flag f else [] |}.

(** The duration that [main] works with: 0 without a flag, the parsed one
    otherwise. *)
Definition main_since (p : Process) (f : Flags) : option time.Duration :=
  if 0 <? length (since_flag f) then
    match ParseDuration p (since_flag f) with
    | inl d => Some d
    | inr _ => None
    end
  else Some 0%Z.

(** ** More definitions for the statements *)

(** The change that the loop of a task makes of a commit that is no merge. *)
Definition change_of (w : World) (now : time.Time) (repository : gostring)
           (c : option github.RepositoryCommit) : Change :=
  {| repository := repository;
     URL := github.GetHTMLURL c;
     Message := sanitizeMessage (github.GetMessage (github.GetCommit c));
     Time := humanize_Time w now (github.GetDate (github.GetCommitter (github.GetCommit c)));
     originalTime := github.GetDate (github.GetCommitter (github.GetCommit c)) |}.

(** The line is one that the sanitizer drops. *)
Definition dropped_line (l : gostring) : Prop :=
  strings.Contains l (str "Signed-off-by") = true \/ strings.TrimSpace l = [].

(** What holds of every line of a sanitized message. *)
Definition clean_line (x : gostring) : Prop :=
  length x <= 84
  /\ strings.Contains x (str "Signed-off-by") = false
  /\ strings.TrimSpace x <> [].

(** The repository that a call of the API is about. *)
Definition target (r : Request) : gostring * gostring :=
  (req_organization r, req_name r).

(** A process with a token, whose durations are a number of days. *)
Definition example_process : Process :=
  {| GITHUB_TOKEN := str "ghp_example";
     ParseDuration := fun s =>
       if bool_decide (s = str "1d") then inl 86400000000000%Z
       else inr (errExternal (str "invalid duration")) |}.

(** The small world, with a payload that also names a repository hosted
    elsewhere. *)
Definition foreign_world : World :=
  {| ListCommits := ListCommits example_world;
     humanize_Time := humanize_Time example_world;
     release_info := fun _ =>
       inl {| Refs := {| Spec := {| Tags :=
                payload_tags ++ [tag_of "elsewhere" (str "https://gitlab.com/openshift/x")]
              |} |} |} |}.

(** ** The calls of a run *)

(** The calls that the task of [repository] makes when it runs at
    wall-clock time [now]. *)
Definition task_calls (w : World) (options : ProcessOptions) (now : time.Time)
           (repository : gostring) : list Request :=
  requests (snd (task w options repository (initial now))).

(** The calls of a sequence of fetches, each one given by the time it runs
    at and by its repository. *)
Definition calls_at (w : World) (options : ProcessOptions)
           (runs : list (time.Time * gostring)) : list Request :=
  flat_map (fun p => task_calls w options (fst p) (snd p)) runs.

(** What a call of [ListCommits] made at [req_at] asks for, in a run
    started at [t0]: the branch of the options, and the commits since the
    time of the call plus the opposite of [Since], the opposite being
    taken on 64 bits as [-options.Since] is. *)
Definition cutoff_ok (options : ProcessOptions) (t0 : time.Time) (r : Request) : Prop :=
  github.SHA (req_opts r) = BranchName options
  /\ github.Since (req_opts r) = time.Add (req_at r) (time.neg (Since options))
  /\ (t0 <= req_at r)%Z.

(** The options of the examples, with the least duration there is. *)
Definition least_options : ProcessOptions :=
  {| Concurrency := 10%Z; Since := (- 2 ^ 63)%Z; BranchName := str "master" |}.

(** * Properties *)

(** ** Bytes *)

Lemma byte_val_range (c : ascii) : (0 <= byte_val c < 256)%Z.
Proof.
  unfold byte_val. pose proof (N_ascii_bounded c). lia.
Qed.

Lemma ascii_eqb_true (a b : ascii) : Ascii.eqb a b = true <-> a = b.
Proof. apply Ascii.eqb_eq. Qed.

Lemma ascii_eqb_false (a b : ascii) : Ascii.eqb a b = false <-> a <> b.
Proof. apply Ascii.eqb_neq. Qed.

(** ** [HasPrefix], [Index], [Contains] *)

Lemma HasPrefix_spec (s p : gostring) :
  strings.HasPrefix s p = true <-> exists t, s = p ++ t.
Proof.
  revert s. induction p as [|a p IH]; intros s; simpl.
  - split; [intros _; exists s; reflexivity | intros _; destruct s; reflexivity].
  - destruct s as [|c s].
    + split; [discriminate | intros [t Ht]; discriminate].
    + simpl. rewrite andb_true_iff, ascii_eqb_true, IH. split.
      * intros [-> [t ->]]. exists t. reflexivity.
      * intros [t Ht]. injection Ht as -> ->. split; [reflexivity | exists t; reflexivity].
Qed.

Lemma HasPrefix_app (p t : gostring) : strings.HasPrefix (p ++ t) p = true.
Proof. apply HasPrefix_spec. exists t. reflexivity. Qed.

Lemma TrimPrefix_app (p t : gostring) : strings.TrimPrefix (p ++ t) p = t.
Proof.
  unfold strings.TrimPrefix. rewrite HasPrefix_app.
  rewrite skipn_app, skipn_all, Nat.sub_diag. reflexivity.
Qed.

Lemma Index_nil (p : gostring) :
  strings.Index [] p = if strings.HasPrefix [] p then Some 0 else None.
Proof. reflexivity. Qed.

Lemma Index_cons (c : ascii) (s p : gostring) :
  strings.Index (c :: s) p =
  if strings.HasPrefix (c :: s) p then Some 0 else option_map S (strings.Index s p).
Proof. reflexivity. Qed.

(** [Index] finds the first instance, and only fails when there is none. *)
Lemma Index_Some (s p : gostring) (i : nat) :
  strings.Index s p = Some i ->
  exists a b, s = a ++ p ++ b /\ length a = i.
Proof.
  revert i. induction s as [|c s IH]; intros i.
  - rewrite Index_nil. destruct (strings.HasPrefix [] p) eqn:E; [|discriminate].
    intros [= <-]. apply HasPrefix_spec in E as [t Ht]. exists [], t. split; [exact Ht | reflexivity].
  - rewrite Index_cons. destruct (strings.HasPrefix (c :: s) p) eqn:E.
    + intros [= <-]. apply HasPrefix_spec in E as [t Ht]. exists [], t. split; [exact Ht | reflexivity].
    + destruct (strings.Index s p) as [j|] eqn:Ej; simpl; [|discriminate].
      intros [= <-]. destruct (IH j eq_refl) as (a & b & -> & Hl).
      exists (c :: a), b. split; [reflexivity | simpl; rewrite Hl; reflexivity].
Qed.

Lemma Index_None (s p : gostring) :
  strings.Index s p = None -> forall a b, s <> a ++ p ++ b.
Proof.
  induction s as [|c s IH].
  - rewrite Index_nil. destruct (strings.HasPrefix [] p) eqn:E; [discriminate|].
    intros _ a b H. symmetry in H. apply app_eq_nil in H as [-> H].
    rewrite <- (not_true_iff_false) in E. apply E. apply HasPrefix_spec. exists b. symmetry. exact H.
  - rewrite Index_cons. destruct (strings.HasPrefix (c :: s) p) eqn:E; [discriminate|].
    destruct (strings.Index s p) eqn:Ej; simpl; [discriminate|].
    intros _ a b H. destruct a as [|x a].
    + rewrite <- not_true_iff_false in E. apply E. apply HasPrefix_spec. exists b. exact H.
    + injection H as _ H. exact (IH eq_refl a b H).
Qed.

Lemma Contains_true (s p : gostring) :
  strings.Contains s p = true <-> exists a b, s = a ++ p ++ b.
Proof.
  unfold strings.Contains. destruct (strings.Index s p) as [i|] eqn:E.
  - split; [intros _|reflexivity]. destruct (Index_Some _ _ _ E) as (a & b & H & _). eauto.
  - split; [discriminate|]. intros (a & b & H). exfalso. exact (Index_None _ _ E a b H).
Qed.

Lemma Contains_false (s p : gostring) :
  strings.Contains s p = false <-> forall a b, s <> a ++ p ++ b.
Proof.
  rewrite <- not_true_iff_false, Contains_true. split.
  - intros H a b E. apply H. eauto.
  - intros H (a & b & E). exact (H a b E).
Qed.

(** A piece of a string without [p] is without [p]. *)
Lemma Contains_false_infix (a x b p : gostring) :
  strings.Contains (a ++ x ++ b) p = false -> strings.Contains x p = false.
Proof.
  rewrite !Contains_false. intros H u v ->. apply (H (a ++ u) (v ++ b)).
  rewrite <- !app_assoc. reflexivity.
Qed.

(** ** [Split] at one byte, and [Join] *)

Lemma HasPrefix_byte (x c : ascii) (s : gostring) :
  strings.HasPrefix (x :: s) [c] = Ascii.eqb x c.
Proof. simpl. destruct s; apply andb_true_r. Qed.

Lemma Index_byte_None (s : gostring) (c : ascii) :
  strings.Index s [c] = None -> ~ In c s.
Proof.
  induction s as [|x s IH]; [intros _ []|].
  rewrite Index_cons, HasPrefix_byte. destruct (Ascii.eqb x c) eqn:E; [discriminate|].
  destruct (strings.Index s [c]); [discriminate|]. intros _ [H|H].
  - apply ascii_eqb_false in E. exact (E H).
  - exact (IH eq_refl H).
Qed.

Lemma Index_byte_Some (s : gostring) (c : ascii) (i : nat) :
  strings.Index s [c] = Some i ->
  exists a b, s = a ++ c :: b /\ length a = i /\ ~ In c a.
Proof.
  revert i. induction s as [|x s IH]; intros i; [discriminate|].
  rewrite Index_cons, HasPrefix_byte. destruct (Ascii.eqb x c) eqn:E.
  - intros [= <-]. apply ascii_eqb_true in E as ->. exists [], s. repeat split. intros [].
  - destruct (strings.Index s [c]) as [j|]; [|discriminate]. intros [= <-].
    destruct (IH j eq_refl) as (a & b & -> & Hl & Hn).
    exists (x :: a), b. repeat split; [simpl; lia|].
    apply ascii_eqb_false in E. intros [H|H]; [exact (E H) | exact (Hn H)].
Qed.

Lemma splitc_cons (c x : ascii) (t : gostring) :
  splitc c (x :: t) =
  if Ascii.eqb x c then [] :: splitc c t
  else match splitc c t with h :: r => (x :: h) :: r | [] => [[x]] end.
Proof. reflexivity. Qed.

Lemma splitc_not_nil (c : ascii) (s : gostring) : splitc c s <> [].
Proof.
  induction s as [|x s IH]; [discriminate|].
  rewrite splitc_cons. destruct (Ascii.eqb x c); [discriminate|].
  destruct (splitc c s); discriminate.
Qed.

Lemma splitc_app_sep (c : ascii) (a b : gostring) :
  ~ In c a -> splitc c (a ++ c :: b) = a :: splitc c b.
Proof.
  induction a as [|x a IH]; intros Hn.
  - simpl. rewrite (proj2 (ascii_eqb_true c c) eq_refl). reflexivity.
  - rewrite <- app_comm_cons, splitc_cons.
    assert (E : Ascii.eqb x c = false) by (apply ascii_eqb_false; intros ->; apply Hn; left; reflexivity).
    rewrite E, IH; [reflexivity|]. intros H. apply Hn. right. exact H.
Qed.

Lemma splitc_notin (c : ascii) (a : gostring) : ~ In c a -> splitc c a = [a].
Proof.
  induction a as [|x a IH]; intros Hn; [reflexivity|].
  rewrite splitc_cons.
  assert (E : Ascii.eqb x c = false) by (apply ascii_eqb_false; intros ->; apply Hn; left; reflexivity).
  rewrite E, IH; [reflexivity|]. intros H. apply Hn. right. exact H.
Qed.

Lemma splitc_elems (c : ascii) (s x : gostring) : In x (splitc c s) -> ~ In c x.
Proof.
  revert x. induction s as [|y s IH]; intros x.
  - intros [<-|[]] [].
  - rewrite splitc_cons. destruct (Ascii.eqb y c) eqn:E.
    + intros [<-|H]; [intros []|exact (IH x H)].
    + destruct (splitc c s) as [|h r] eqn:Es.
      * exfalso. exact (splitc_not_nil _ _ Es).
      * intros [<-|H].
        -- intros [Hy|Hh]; [apply ascii_eqb_false in E; exact (E Hy)|].
           exact (IH h (or_introl eq_refl) Hh).
        -- apply IH. right. exact H.
Qed.

Lemma Join_cons (a : gostring) (rest : list gostring) (sep : gostring) :
  rest <> [] -> strings.Join (a :: rest) sep = a ++ sep ++ strings.Join rest sep.
Proof. destruct rest; [congruence | reflexivity]. Qed.

Lemma Join_splitc (c : ascii) (s : gostring) : strings.Join (splitc c s) [c] = s.
Proof.
  induction s as [|x s IH]; [reflexivity|].
  rewrite splitc_cons. destruct (Ascii.eqb x c) eqn:E.
  - apply ascii_eqb_true in E as ->.
    rewrite Join_cons by apply splitc_not_nil. rewrite IH. reflexivity.
  - destruct (splitc c s) as [|h r] eqn:Es; [exfalso; exact (splitc_not_nil _ _ Es)|].
    destruct r as [|h' r].
    + simpl in *. rewrite IH. reflexivity.
    + rewrite Join_cons by discriminate. rewrite Join_cons in IH by discriminate.
      rewrite <- IH. reflexivity.
Qed.

Lemma splitc_Join (c : ascii) (r : list gostring) :
  r <> [] -> Forall (fun x => ~ In c x) r -> splitc c (strings.Join r [c]) = r.
Proof.
  induction r as [|a r IH]; [congruence|]. intros _ HF.
  apply Forall_cons_iff in HF as [Ha HF]. destruct r as [|b r].
  - simpl. apply splitc_notin. exact Ha.
  - rewrite Join_cons by discriminate.
    change ([c] ++ strings.Join (b :: r) [c]) with (c :: strings.Join (b :: r) [c]).
    rewrite splitc_app_sep by exact Ha. rewrite IH; [reflexivity|discriminate|exact HF].
Qed.

(** [strings.Split] at a one-byte separator is [splitc]. *)
Lemma genSplit_loop_splitc (c : ascii) (fuel : nat) (s : gostring) :
  length s <= fuel ->
  strings.genSplit_loop (strings.Count_loop fuel s [c]) s [c] = splitc c s.
Proof.
  revert s. induction fuel as [|fuel IH]; intros s Hl.
  - destruct s; [reflexivity | simpl in Hl; lia].
  - simpl strings.Count_loop. destruct (strings.Index s [c]) as [i|] eqn:E.
    + destruct (Index_byte_Some _ _ _ E) as (a & b & -> & Hi & Hn).
      simpl strings.genSplit_loop. rewrite E.
      assert (Hs : skipn (i + 1) (a ++ c :: b) = b).
      { rewrite <- Hi. rewrite skipn_app, skipn_all2 by lia.
        replace (length a + 1 - length a) with 1 by lia. reflexivity. }
      rewrite Hs. rewrite <- Hi, firstn_app, Nat.sub_diag, firstn_all. simpl firstn.
      rewrite app_nil_r, IH, splitc_app_sep; [reflexivity|exact Hn|].
      rewrite length_app in Hl. simpl in Hl. lia.
    + simpl. symmetry. apply splitc_notin. apply Index_byte_None. exact E.
Qed.

Lemma Split_byte (s : gostring) (c : ascii) : strings.Split s [c] = splitc c s.
Proof. apply genSplit_loop_splitc. reflexivity. Qed.

(** Exactly two pieces: exactly one separator. *)
Lemma splitc_two (c : ascii) (s a b : gostring) :
  splitc c s = [a; b] <-> s = a ++ c :: b /\ ~ In c a /\ ~ In c b.
Proof.
  split.
  - intros H. pose proof (Join_splitc c s) as HJ. rewrite H in HJ. simpl in HJ.
    split; [symmetry; exact HJ|].
    split; apply (splitc_elems c s); rewrite H; simpl; auto.
  - intros (-> & Ha & Hb). rewrite splitc_app_sep by exact Ha.
    rewrite splitc_notin by exact Hb. reflexivity.
Qed.

(** ** [parseRepositoryOrgName] *)

(** C4, as the code has it: a reference is parsed, into [organization] and
    [name], exactly when it is the host prefix followed by two segments
    separated by the only slash of the rest; a segment may be empty.  Every
    other reference gives the not-parsed answer [None]. *)
Theorem parseRepositoryOrgName_iff (repository organization name : gostring) :
  parseRepositoryOrgName repository = Some (organization, name) <->
  repository = github_prefix ++ organization ++ str "/" ++ name
  /\ ~ In "/"%char organization /\ ~ In "/"%char name.
Proof.
  unfold parseRepositoryOrgName.
  destruct (strings.HasPrefix repository github_prefix) eqn:E; simpl negb; cbv iota.
  - apply HasPrefix_spec in E as [t ->]. rewrite TrimPrefix_app.
    change (str "/") with ["/"%char]. rewrite Split_byte. split.
    + destruct (splitc "/"%char t) as [|p0 [|p1 [|p2 r]]] eqn:Es; try discriminate.
      intros [= -> ->]. apply splitc_two in Es as (-> & Ha & Hb). auto.
    + intros (Hr & Ha & Hb). apply app_inv_head in Hr. subst t.
      change (["/"%char] ++ name) with ("/"%char :: name).
      rewrite splitc_app_sep, splitc_notin by assumption. reflexivity.
  - split; [discriminate|]. intros (-> & _). rewrite HasPrefix_app in E. discriminate.
Qed.

(** C4, as the claim states it, fails: a trailing slash leaves an empty
    second segment, and the reference is parsed all the same. *)
Lemma parseRepositoryOrgName_empty_segment :
  parseRepositoryOrgName (str "https://github.com/openshift/") = Some (str "openshift", [])
  /\ ~ (parseRepositoryOrgName (str "https://github.com/openshift/") <> None
        <-> two_nonempty_segments (str "https://github.com/openshift/")).
Proof.
  split; [vm_compute; reflexivity|].
  intros [H _]. destruct H as (_ & p0 & p1 & Hs & _ & Hp1).
  - vm_compute. discriminate.
  - vm_compute in Hs. injection Hs as _ Hs. apply Hp1. symmetry. exact Hs.
Qed.

(** ** Reading bytes *)

Lemma byteAt_cons_0 (c : ascii) (t : gostring) : byteAt (c :: t) 0 = byte_val c.
Proof. reflexivity. Qed.

Lemma byteAt_cons_S (c : ascii) (t : gostring) (i : nat) :
  byteAt (c :: t) (S i) = byteAt t i.
Proof. reflexivity. Qed.

Lemma byteAt_skipn (s : gostring) (k i : nat) :
  byteAt (skipn k s) i = byteAt s (k + i).
Proof.
  revert s. induction k as [|k IH]; intros s; [reflexivity|].
  destruct s as [|c s]; [destruct i; reflexivity|]. simpl skipn. rewrite IH. reflexivity.
Qed.

Lemma byteAt_firstn (s : gostring) (e i : nat) :
  i < e -> byteAt (firstn e s) i = byteAt s i.
Proof.
  revert s i. induction e as [|e IH]; intros s i Hi; [lia|].
  destruct s as [|c s]; [reflexivity|]. destruct i as [|i]; [reflexivity|].
  simpl firstn. rewrite !byteAt_cons_S. apply IH. lia.
Qed.

Lemma byteAt_app_l (a b : gostring) (i : nat) :
  i < length a -> byteAt (a ++ b) i = byteAt a i.
Proof. intros H. unfold byteAt. rewrite app_nth1 by exact H. reflexivity. Qed.

Lemma byteAt_app_r (a b : gostring) (i : nat) :
  byteAt (a ++ b) (length a + i) = byteAt b i.
Proof.
  unfold byteAt. rewrite app_nth2 by lia.
  replace (length a + i - length a) with i by lia. reflexivity.
Qed.

Lemma byteAt_range (s : gostring) (i : nat) : (0 <= byteAt s i < 256)%Z.
Proof. apply byte_val_range. Qed.

(** ** Decoding UTF-8 *)

Lemma RuneStart_byte (c : ascii) :
  utf8.RuneStart (byte_val c) = negb ((0x80 <=? byte_val c)%Z && (byte_val c <=? 0xBF)%Z).
Proof. destruct c as [[] [] [] [] [] [] [] []]; vm_compute; reflexivity. Qed.

Lemma RuneStart_true (s : gostring) (i : nat) :
  ~ cont (byteAt s i) -> utf8.RuneStart (byteAt s i) = true.
Proof.
  unfold byteAt, cont. intros H. rewrite RuneStart_byte.
  apply negb_true_iff, andb_false_iff.
  destruct (Z.leb_spec 0x80 (byte_val (nth i s zero))); [|left; reflexivity].
  right. apply Z.leb_gt. lia.
Qed.

Lemma RuneStart_false (s : gostring) (i : nat) :
  cont (byteAt s i) -> utf8.RuneStart (byteAt s i) = false.
Proof.
  unfold byteAt, cont. intros H. rewrite RuneStart_byte.
  apply negb_false_iff, andb_true_iff. split; apply Z.leb_le; lia.
Qed.

Lemma first_ASCII (b : Z) : (b < 0x80)%Z -> utf8.first b = utf8.ASCII.
Proof. intros H. unfold utf8.first. rewrite (proj2 (Z.ltb_lt _ _) H). reflexivity. Qed.

Lemma first_not_ASCII (b : Z) : utf8.first b = utf8.ASCII -> (b < 0x80)%Z.
Proof.
  unfold utf8.first.
  repeat match goal with
         | |- context [if ?c then _ else _] => destruct c eqn:?
         end; try discriminate.
  intros _. apply Z.ltb_lt. assumption.
Qed.

Lemma first_Invalid (b : Z) : utf8.first b = utf8.Invalid -> (0x80 <= b)%Z.
Proof.
  unfold utf8.first. destruct (b <? 0x80)%Z eqn:E; [discriminate|].
  intros _. apply Z.ltb_ge. exact E.
Qed.

Lemma first_Lead (b : Z) (sz : nat) (lo hi : Z) :
  utf8.first b = utf8.Lead sz lo hi ->
  (0xC2 <= b)%Z /\ 2 <= sz <= 4 /\ (0x80 <= lo)%Z /\ (hi <= 0xBF)%Z.
Proof.
  unfold utf8.first.
  destruct (b <? 0x80)%Z eqn:E1; [discriminate|].
  destruct (b <? 0xC2)%Z eqn:E2; [discriminate|].
  apply Z.ltb_ge in E2.
  repeat match goal with
         | |- context [if ?c then _ else _] => destruct c
         end; intros [= <- <- <-] || discriminate; repeat split; lia.
Qed.

Lemma IsSpace_RuneError : unicode.IsSpace utf8.RuneError = false.
Proof. reflexivity. Qed.

(** On ASCII the table of [TrimSpace] and [unicode.IsSpace] agree. *)
Lemma IsSpace_ascii (b : Z) :
  (0 <= b < 0x80)%Z -> unicode.IsSpace b = strings.asciiSpace b.
Proof.
  intros H. unfold unicode.IsSpace, strings.asciiSpace.
  replace ((0 <=? b)%Z && (b <=? 0xFF)%Z) with true
    by (symmetry; apply andb_true_iff; split; apply Z.leb_le; lia).
  replace (b =? 0x85)%Z with false by (symmetry; apply Z.eqb_neq; lia).
  replace (b =? 0xA0)%Z with false by (symmetry; apply Z.eqb_neq; lia).
  rewrite !orb_false_r. reflexivity.
Qed.

Lemma range_check (b lo hi : Z) :
  ((b <? lo) || (hi <? b))%Z = false -> (lo <= b <= hi)%Z.
Proof.
  intros H. apply orb_false_iff in H as [H1 H2].
  apply Z.ltb_ge in H1, H2. lia.
Qed.

(** What [DecodeRuneInString] can answer on a non-empty string: an ASCII
    byte, [RuneError] for one bad byte, or a well-formed sequence. *)
Lemma DecodeRune_inv (s : gostring) (r : Z) (n : nat) :
  s <> [] -> utf8.DecodeRuneInString s = (r, n) ->
  (n = 1 /\ (byteAt s 0 < 0x80)%Z /\ r = byteAt s 0)
  \/ (n = 1 /\ (0x80 <= byteAt s 0)%Z /\ r = utf8.RuneError)
  \/ valid_multi s r n.
Proof.
  destruct s as [|c0 t]; [congruence|]. intros _.
  unfold utf8.DecodeRuneInString.
  destruct (utf8.first (byte_val c0)) as [| |sz lo hi] eqn:F.
  - intros [= <- <-]. left. rewrite byteAt_cons_0.
    split; [reflexivity|]. split; [apply first_not_ASCII; exact F | reflexivity].
  - intros [= <- <-]. right; left. rewrite byteAt_cons_0.
    split; [reflexivity|]. split; [apply first_Invalid; exact F | reflexivity].
  - destruct (first_Lead _ _ _ _ F) as (Hb & Hsz & Hlo & Hhi).
    assert (Bad : (utf8.RuneError, 1) = (r, n) ->
                  (n = 1 /\ (byteAt (c0 :: t) 0 < 0x80)%Z /\ r = byteAt (c0 :: t) 0)
                  \/ (n = 1 /\ (0x80 <= byteAt (c0 :: t) 0)%Z /\ r = utf8.RuneError)
                  \/ valid_multi (c0 :: t) r n).
    { intros [= <- <-]. right; left. rewrite byteAt_cons_0. repeat split. lia. }
    destruct (length (c0 :: t) <? sz) eqn:EL; [exact Bad|]. apply Nat.ltb_ge in EL.
    destruct ((byteAt (c0 :: t) 1 <? lo) || (hi <? byteAt (c0 :: t) 1))%Z eqn:R1; [exact Bad|].
    pose proof (range_check _ _ _ R1) as C1.
    destruct (sz <=? 2) eqn:S2.
    { apply Nat.leb_le in S2. assert (sz = 2) by lia. subst sz.
      intros [= <- <-]. right; right. unfold valid_multi. rewrite byteAt_cons_0.
      repeat split; try lia.
      - assert (k = 1) by lia. subst k. lia.
      - assert (k = 1) by lia. subst k. lia.
      - intros b. destruct t as [|c1 t1]; [simpl in EL; lia|].
        simpl firstn. simpl app. unfold utf8.DecodeRuneInString. rewrite F.
        unfold byteAt in *. simpl nth in *. simpl length. rewrite R1. reflexivity. }
    destruct ((byteAt (c0 :: t) 2 <? utf8.locb) || (utf8.hicb <? byteAt (c0 :: t) 2))%Z eqn:R2;
      [exact Bad|].
    pose proof (range_check _ _ _ R2) as C2. unfold utf8.locb, utf8.hicb in C2.
    destruct (sz <=? 3) eqn:S3.
    { apply Nat.leb_le in S3. apply Nat.leb_gt in S2. assert (sz = 3) by lia. subst sz.
      intros [= <- <-]. right; right. unfold valid_multi. rewrite byteAt_cons_0.
      repeat split; try lia.
      - assert (k = 1 \/ k = 2) as [-> | ->] by lia; lia.
      - assert (k = 1 \/ k = 2) as [-> | ->] by lia; lia.
      - intros b. destruct t as [|c1 [|c2 t2]]; [simpl in EL; lia | simpl in EL; lia |].
        simpl firstn. simpl app. unfold utf8.DecodeRuneInString. rewrite F.
        unfold byteAt in *. simpl nth in *. simpl length. rewrite R1, R2. reflexivity. }
    destruct ((byteAt (c0 :: t) 3 <? utf8.locb) || (utf8.hicb <? byteAt (c0 :: t) 3))%Z eqn:R3;
      [exact Bad|].
    pose proof (range_check _ _ _ R3) as C3. unfold utf8.locb, utf8.hicb in C3.
    apply Nat.leb_gt in S2, S3. assert (sz = 4) by lia. subst sz.
    intros [= <- <-]. right; right. unfold valid_multi. rewrite byteAt_cons_0.
    repeat split; try lia.
    + assert (k = 1 \/ k = 2 \/ k = 3) as [-> | [-> | ->]] by lia; lia.
    + assert (k = 1 \/ k = 2 \/ k = 3) as [-> | [-> | ->]] by lia; lia.
    + intros b. destruct t as [|c1 [|c2 [|c3 t3]]];
        [simpl in EL; lia | simpl in EL; lia | simpl in EL; lia |].
      simpl firstn. simpl app. unfold utf8.DecodeRuneInString. rewrite F.
      unfold byteAt in *. simpl nth in *. simpl length. rewrite R1, R2, R3. reflexivity.
Qed.

Lemma DecodeRune_size (s : gostring) (r : Z) (n : nat) :
  s <> [] -> utf8.DecodeRuneInString s = (r, n) -> 1 <= n <= length s.
Proof.
  intros Hs H. destruct (DecodeRune_inv s r n Hs H) as [(-> & _) | [(-> & _) | V]].
  - destruct s; [congruence | simpl; lia].
  - destruct s; [congruence | simpl; lia].
  - destruct V as (_ & ? & ? & _). lia.
Qed.

Lemma DecodeRune_ascii (s : gostring) :
  s <> [] -> (byteAt s 0 < 0x80)%Z -> utf8.DecodeRuneInString s = (byteAt s 0, 1).
Proof.
  destruct s as [|c t]; [congruence|]. intros _ H. rewrite byteAt_cons_0 in *.
  unfold utf8.DecodeRuneInString. rewrite first_ASCII by exact H. reflexivity.
Qed.

Lemma valid_multi_app (x b : gostring) (r : Z) (n : nat) :
  valid_multi x r n -> utf8.DecodeRuneInString (x ++ b) = (r, n).
Proof.
  intros (_ & _ & _ & _ & H).
  rewrite <- (firstn_skipn n x), <- app_assoc. apply H.
Qed.

(** A white-space character is decoded from its own bytes alone. *)
Lemma DecodeRune_space_app (x b : gostring) :
  x <> [] -> unicode.IsSpace (fst (utf8.DecodeRuneInString x)) = true ->
  utf8.DecodeRuneInString (x ++ b) = utf8.DecodeRuneInString x.
Proof.
  intros Hx Hs. destruct (utf8.DecodeRuneInString x) as [r n] eqn:E.
  destruct (DecodeRune_inv x r n Hx E) as [(-> & Hb & ->) | [(-> & _ & ->) | V]].
  - rewrite DecodeRune_ascii.
    + rewrite byteAt_app_l; [reflexivity|]. destruct x; [congruence | simpl; lia].
    + destruct x; [congruence | discriminate].
    + rewrite byteAt_app_l; [exact Hb|]. destruct x; [congruence | simpl; lia].
  - simpl in Hs. rewrite IsSpace_RuneError in Hs. discriminate.
  - apply valid_multi_app. exact V.
Qed.

Lemma lastStart_le (s : gostring) (n start : nat) : utf8.lastStart s n start <= start.
Proof.
  revert start. induction n as [|n IH]; intros start; simpl; [lia|].
  destruct (utf8.RuneStart (byteAt s start)); [lia|]. specialize (IH (start - 1)). lia.
Qed.

Lemma lastStart_found (s : gostring) (m : nat) :
  forall n start,
    m < n -> m <= start ->
    (forall j, start - m < j <= start -> cont (byteAt s j)) ->
    ~ cont (byteAt s (start - m)) ->
    utf8.lastStart s n start = start - m.
Proof.
  induction m as [|m IH]; intros n start Hn Hm Hc Hs.
  - destruct n as [|n]; [lia|]. simpl. rewrite Nat.sub_0_r in Hs.
    rewrite RuneStart_true by exact Hs. lia.
  - destruct n as [|n]; [lia|]. simpl.
    rewrite RuneStart_false by (apply Hc; lia).
    rewrite (IH n (start - 1)); try lia.
    + intros j Hj. apply Hc. lia.
    + replace (start - 1 - m) with (start - S m) by lia. exact Hs.
Qed.

(** What [DecodeLastRuneInString] can answer on a non-empty string. *)
Lemma DecodeLast_inv (s : gostring) (r : Z) (n : nat) :
  s <> [] -> utf8.DecodeLastRuneInString s = (r, n) ->
  1 <= n <= length s /\
  ((n = 1 /\ (byteAt s (length s - 1) < 0x80)%Z /\ r = byteAt s (length s - 1))
   \/ (n = 1 /\ (0x80 <= byteAt s (length s - 1))%Z /\ r = utf8.RuneError)
   \/ ((0x80 <= byteAt s (length s - 1))%Z
       /\ utf8.DecodeRuneInString (skipn (length s - n) s) = (r, n))).
Proof.
  intros Hs. assert (Hl : 0 < length s) by (destruct s; [congruence | simpl; lia]).
  unfold utf8.DecodeLastRuneInString.
  rewrite (proj2 (Nat.eqb_neq _ _)) by lia.
  destruct (byteAt s (length s - 1) <? utf8.RuneSelf)%Z eqn:E.
  - apply Z.ltb_lt in E. unfold utf8.RuneSelf in E. intros [= <- <-].
    split; [lia|]. left. auto.
  - apply Z.ltb_ge in E. unfold utf8.RuneSelf in E.
    set (start := utf8.lastStart s (length s - 1 - (length s - utf8.UTFMax)) (length s - 2)).
    assert (Hst : start < length s).
    { pose proof (lastStart_le s (length s - 1 - (length s - utf8.UTFMax)) (length s - 2)).
      fold start in H. lia. }
    destruct (utf8.DecodeRuneInString (skipn start s)) as [r' size] eqn:D.
    assert (Hne : skipn start s <> []).
    { intros H. apply (f_equal (@length ascii)) in H. rewrite length_skipn in H. simpl in H. lia. }
    pose proof (DecodeRune_size _ _ _ Hne D) as Hsz. rewrite length_skipn in Hsz.
    destruct (start + size =? length s) eqn:Q.
    + apply Nat.eqb_eq in Q. intros [= <- <-]. split; [lia|]. right; right.
      split; [exact E|]. replace (length s - size) with start by lia. exact D.
    + intros [= <- <-]. split; [lia|]. right; left. auto.
Qed.

Lemma DecodeLast_ascii (a : gostring) (c : ascii) :
  (byte_val c < 0x80)%Z -> utf8.DecodeLastRuneInString (a ++ [c]) = (byte_val c, 1).
Proof.
  intros H. unfold utf8.DecodeLastRuneInString.
  rewrite length_app. simpl length.
  rewrite (proj2 (Nat.eqb_neq _ _)) by lia.
  replace (length a + 1 - 1) with (length a + 0) by lia.
  rewrite byteAt_app_r, byteAt_cons_0.
  rewrite (proj2 (Z.ltb_lt _ _)) by exact H. reflexivity.
Qed.

(** A well-formed sequence at the end of a string is found again from the end. *)
Lemma DecodeLast_valid (a e : gostring) (r : Z) (n : nat) :
  valid_multi e r n -> length e = n ->
  utf8.DecodeLastRuneInString (a ++ e) = (r, n).
Proof.
  intros V Hn. pose proof V as (Hb & Hr & _ & Hc & _).
  unfold utf8.DecodeLastRuneInString. rewrite length_app, Hn.
  rewrite (proj2 (Nat.eqb_neq _ _)) by lia.
  replace (length a + n - 1) with (length a + (n - 1)) by lia.
  rewrite byteAt_app_r.
  assert (C : cont (byteAt e (n - 1))) by (apply Hc; lia).
  rewrite (proj2 (Z.ltb_ge _ _)) by (unfold cont, utf8.RuneSelf in *; lia).
  rewrite (lastStart_found (a ++ e) (n - 2)).
  - replace (length a + n - 2 - (n - 2)) with (length a) by lia.
    rewrite skipn_app, skipn_all, Nat.sub_diag. simpl skipn. simpl app.
    pose proof (valid_multi_app e [] r n V) as De. rewrite app_nil_r in De.
    change (drop 0 e) with e. rewrite De, Nat.eqb_refl. reflexivity.
  - unfold utf8.UTFMax. lia.
  - lia.
  - intros j Hj. replace j with (length a + (j - length a)) by lia.
    rewrite byteAt_app_r. apply Hc. lia.
  - replace (length a + n - 2 - (n - 2)) with (length a + 0) by lia.
    rewrite byteAt_app_r. unfold cont. lia.
Qed.

(** ** The scans of [TrimLeftFunc] and [TrimRightFunc] *)

Arguments utf8.DecodeRuneInString : simpl never.
Arguments utf8.DecodeLastRuneInString : simpl never.

Lemma eqb_false_r (b : bool) : Bool.eqb b false = negb b.
Proof. destruct b; reflexivity. Qed.

Lemma firstn_not_nil (z : gostring) (e : nat) :
  0 < e -> e <= length z -> firstn e z <> [].
Proof.
  intros He Hl H. apply (f_equal (@length ascii)) in H.
  rewrite length_firstn in H. simpl in H. lia.
Qed.

Lemma skipn_not_nil (z : gostring) (i : nat) : i < length z -> skipn i z <> [].
Proof.
  intros Hl H. apply (f_equal (@length ascii)) in H.
  rewrite length_skipn in H. simpl in H. lia.
Qed.

(** The forward scan stops on a character that is not [f]. *)
Lemma indexFunc_loop_Some (s : gostring) (f : Z -> bool) (fuel : nat) :
  forall i j,
    strings.indexFunc_loop fuel s f false i = Some j ->
    i <= j /\ j < length s /\ f (fst (utf8.DecodeRuneInString (skipn j s))) = false.
Proof.
  induction fuel as [|fuel IH]; intros i j; simpl; [discriminate|].
  destruct (length s <=? i) eqn:L; [discriminate|]. apply Nat.leb_gt in L.
  destruct (utf8.DecodeRuneInString (skipn i s)) as [r size] eqn:D.
  rewrite eqb_false_r. destruct (f r) eqn:Fr; simpl.
  - intros H. apply IH in H as (H1 & H2 & H3). repeat split; [lia | exact H2 | exact H3].
  - intros [= <-]. rewrite D. repeat split; [lia | exact L | exact Fr].
Qed.

(** When the forward scan finds nothing but white space, the last
    character is white space. *)
Lemma indexFunc_loop_None (s : gostring) (fuel : nat) :
  forall i,
    i < length s -> length s - i <= fuel ->
    strings.indexFunc_loop fuel s unicode.IsSpace false i = None ->
    unicode.IsSpace (fst (utf8.DecodeLastRuneInString s)) = true.
Proof.
  induction fuel as [|fuel IH]; intros i Hi Hf; [lia|]. simpl.
  rewrite (proj2 (Nat.leb_gt _ _)) by exact Hi.
  destruct (utf8.DecodeRuneInString (skipn i s)) as [r size] eqn:D.
  pose proof (skipn_not_nil s i Hi) as Hne.
  pose proof (DecodeRune_size _ _ _ Hne D) as Hsz. rewrite length_skipn in Hsz.
  rewrite eqb_false_r. destruct (unicode.IsSpace r) eqn:Sr; simpl; [|discriminate].
  destruct (Nat.eq_dec (i + size) (length s)) as [Q|Q].
  - intros _. rewrite <- (firstn_skipn i s).
    destruct (DecodeRune_inv _ _ _ Hne D) as [(-> & Hb & ->) | [(-> & _ & ->) | V]].
    + destruct (skipn i s) as [|c [|c' t]] eqn:Es; [congruence| |].
      * rewrite DecodeLast_ascii by exact Hb. exact Sr.
      * apply (f_equal (@length ascii)) in Es. rewrite length_skipn in Es. simpl in Es. lia.
    + rewrite IsSpace_RuneError in Sr. discriminate.
    + rewrite (DecodeLast_valid _ _ r size V); [exact Sr|]. rewrite length_skipn. lia.
  - apply IH; lia.
Qed.

(** The backward scan stops after a character that is not white space,
    at a position where a character ends. *)
Lemma lastIndexFunc_loop_Some (z : gostring) (fuel : nat) :
  forall i j,
    strings.lastIndexFunc_loop fuel z unicode.IsSpace false i = Some j ->
    i <= length z -> scan_pos z i ->
    exists e r, j < e /\ e <= i
                /\ utf8.DecodeLastRuneInString (firstn e z) = (r, e - j)
                /\ unicode.IsSpace r = false /\ scan_pos z e.
Proof.
  induction fuel as [|fuel IH]; intros i j; simpl; [discriminate|].
  destruct (i =? 0) eqn:I0; [discriminate|]. apply Nat.eqb_neq in I0.
  intros H Hi Hinv.
  destruct (utf8.DecodeLastRuneInString (firstn i z)) as [r size] eqn:D.
  assert (Hne : firstn i z <> []) by (apply firstn_not_nil; lia).
  destruct (DecodeLast_inv _ _ _ Hne D) as [Hsz Hc].
  rewrite length_firstn, Nat.min_l in Hsz, Hc by exact Hi.
  rewrite eqb_false_r in H. destruct (unicode.IsSpace r) eqn:Sr; simpl in H.
  - assert (Hinv' : scan_pos z (i - size)).
    { right. destruct Hc as [(-> & Hb & _) | [(_ & _ & ->) | (_ & Hd)]].
      - rewrite byteAt_firstn in Hb by lia. unfold cont. lia.
      - rewrite IsSpace_RuneError in Sr. discriminate.
      - assert (Hu : skipn (i - size) (firstn i z) <> []).
        { apply skipn_not_nil. rewrite length_firstn. lia. }
        assert (Hb0 : byteAt (skipn (i - size) (firstn i z)) 0 = byteAt z (i - size)).
        { rewrite byteAt_skipn, byteAt_firstn by lia. f_equal. lia. }
        destruct (DecodeRune_inv _ _ _ Hu Hd) as [(_ & Hb & _) | [(_ & _ & ->) | V]].
        + rewrite Hb0 in Hb. unfold cont. lia.
        + rewrite IsSpace_RuneError in Sr. discriminate.
        + destruct V as (Hb & _). rewrite Hb0 in Hb. unfold cont. lia. }
    destruct (IH _ _ H ltac:(lia) Hinv') as (e & r' & H1 & H2 & H3 & H4 & H5).
    exists e, r'. repeat split; try assumption; lia.
  - injection H as <-. exists i, r. repeat split; try assumption; try lia.
    replace (i - (i - size)) with size by lia. exact D.
Qed.

(** When the backward scan finds nothing but white space, the first
    character is white space. *)
Lemma lastIndexFunc_loop_None (z : gostring) (fuel : nat) :
  forall i,
    strings.lastIndexFunc_loop fuel z unicode.IsSpace false i = None ->
    0 < i -> i <= length z -> i <= fuel ->
    unicode.IsSpace (fst (utf8.DecodeRuneInString z)) = true.
Proof.
  induction fuel as [|fuel IH]; intros i H H0 Hi Hf; [lia|]. simpl in H.
  rewrite (proj2 (Nat.eqb_neq _ _)) in H by lia.
  destruct (utf8.DecodeLastRuneInString (firstn i z)) as [r size] eqn:D.
  assert (Hne : firstn i z <> []) by (apply firstn_not_nil; lia).
  destruct (DecodeLast_inv _ _ _ Hne D) as [Hsz Hc].
  rewrite length_firstn, Nat.min_l in Hsz, Hc by exact Hi.
  rewrite eqb_false_r in H. destruct (unicode.IsSpace r) eqn:Sr; simpl in H; [|discriminate].
  destruct (Nat.eq_dec size i) as [Q|Q].
  - subst size. rewrite Nat.sub_diag in Hc. simpl skipn in Hc.
    assert (Hd : utf8.DecodeRuneInString (firstn i z) = (r, i)).
    { destruct Hc as [(-> & Hb & ->) | [(_ & _ & ->) | (_ & Hd)]].
      - simpl Nat.sub in *. apply DecodeRune_ascii; assumption.
      - rewrite IsSpace_RuneError in Sr. discriminate.
      - exact Hd. }
    rewrite <- (firstn_skipn i z), DecodeRune_space_app; rewrite ?Hd; assumption.
  - apply (IH (i - size)); [exact H | lia | lia | lia].
Qed.

(** After a position of the scan, a byte that does not fit a longer
    sequence is decoded alone. *)
Lemma DecodeRune_single (z : gostring) (j : nat) :
  j < length z -> scan_pos z (j + 1) ->
  snd (utf8.DecodeRuneInString (skipn j z)) = 1.
Proof.
  intros Hj Hinv. destruct (utf8.DecodeRuneInString (skipn j z)) as [r n] eqn:D.
  pose proof (skipn_not_nil z j Hj) as Hne.
  destruct (DecodeRune_inv _ _ _ Hne D) as [(-> & _) | [(-> & _) | V]]; try reflexivity.
  destruct V as (_ & Hn & Hl & Hc & _). rewrite length_skipn in Hl.
  specialize (Hc 1 ltac:(lia)). rewrite byteAt_skipn in Hc.
  destruct Hinv as [Hinv|Hinv]; [lia | contradiction].
Qed.

(** [TrimRightFunc] cuts where the scan stopped. *)
Lemma TrimRight_cut (z : gostring) (e j : nat) (r : Z) :
  j < e -> e <= length z ->
  utf8.DecodeLastRuneInString (firstn e z) = (r, e - j) ->
  scan_pos z e ->
  (if (utf8.RuneSelf <=? byteAt z j)%Z
   then firstn (j + snd (utf8.DecodeRuneInString (skipn j z))) z
   else firstn (j + 1) z) = firstn e z.
Proof.
  intros Hj He D Hinv.
  assert (Hne : firstn e z <> []) by (apply firstn_not_nil; lia).
  destruct (DecodeLast_inv _ _ _ Hne D) as [Hsz Hc].
  rewrite length_firstn, Nat.min_l in Hsz, Hc by exact He.
  assert (Hu : skipn j (firstn e z) <> []).
  { apply skipn_not_nil. rewrite length_firstn. lia. }
  assert (Hb0 : byteAt (skipn j (firstn e z)) 0 = byteAt z j).
  { rewrite byteAt_skipn, byteAt_firstn by lia. f_equal. lia. }
  replace (e - (e - j)) with j in Hc by lia.
  unfold utf8.RuneSelf.
  destruct (Z.leb_spec 0x80 (byteAt z j)) as [Hb|Hb].
  - f_equal.
    destruct Hc as [(Hn & Hlast & _) | [(Hn & _) | (_ & Hd)]].
    + rewrite byteAt_firstn in Hlast by lia. replace (e - 1) with j in Hlast by lia. lia.
    + rewrite DecodeRune_single; [lia | lia |]. replace (j + 1) with e by lia. exact Hinv.
    + destruct (DecodeRune_inv _ _ _ Hu Hd) as [(_ & Hb' & _) | [(Hn & _) | V]].
      * rewrite Hb0 in Hb'. lia.
      * rewrite DecodeRune_single; [lia | lia |]. replace (j + 1) with e by lia. exact Hinv.
      * assert (Hz : skipn j z = skipn j (firstn e z) ++ skipn e z).
        { rewrite <- (firstn_skipn e z) at 1. rewrite skipn_app.
          rewrite length_firstn, Nat.min_l by exact He.
          replace (j - e) with 0 by lia. reflexivity. }
        rewrite Hz, (valid_multi_app _ _ _ _ V). simpl. lia.
  - f_equal.
    destruct Hc as [(Hn & _) | [(Hn & _) | (_ & Hd)]]; try lia.
    rewrite DecodeRune_ascii in Hd by (rewrite ?Hb0; assumption).
    injection Hd as _ Hd. lia.
Qed.

(** A string whose last character is not white space is left alone by
    [TrimRightFunc]. *)
Lemma TrimRightFunc_back_ok (x : gostring) :
  back_ok x -> strings.TrimRightFunc x unicode.IsSpace = x.
Proof.
  intros [Hx Hs]. unfold strings.TrimRightFunc, strings.lastIndexFunc.
  assert (Hl : 0 < length x) by (destruct x; [congruence | simpl; lia]).
  destruct (length x) as [|k] eqn:El; [lia|]. simpl strings.lastIndexFunc_loop.
  rewrite <- El, firstn_all.
  destruct (utf8.DecodeLastRuneInString x) as [r size] eqn:D. simpl in Hs.
  rewrite eqb_false_r, Hs. simpl negb. cbv iota.
  destruct (DecodeLast_inv _ _ _ Hx D) as [Hsz _].
  rewrite (TrimRight_cut x (length x) (length x - size) r).
  - apply firstn_all.
  - lia.
  - lia.
  - rewrite firstn_all. replace (length x - (length x - size)) with size by lia. exact D.
  - left. reflexivity.
Qed.

Lemma TrimRightFunc_prefix (z : gostring) (f : Z -> bool) :
  exists k, strings.TrimRightFunc z f = firstn k z.
Proof.
  unfold strings.TrimRightFunc. destruct (strings.lastIndexFunc z f false) as [i|].
  - destruct (utf8.RuneSelf <=? byteAt z i)%Z; eauto.
  - eauto.
Qed.

(** A string whose first character is not white space keeps it through
    [TrimRightFunc], and ends on a character that is not white space. *)
Lemma TrimRightFunc_front_ok (z : gostring) :
  front_ok z ->
  front_ok (strings.TrimRightFunc z unicode.IsSpace)
  /\ back_ok (strings.TrimRightFunc z unicode.IsSpace).
Proof.
  intros [Hz Hs].
  assert (Hl : 0 < length z) by (destruct z; [congruence | simpl; lia]).
  unfold strings.TrimRightFunc, strings.lastIndexFunc.
  destruct (strings.lastIndexFunc_loop (length z) z unicode.IsSpace false (length z))
    as [j|] eqn:L.
  - destruct (lastIndexFunc_loop_Some _ _ _ _ L (Nat.le_refl _) (or_introl eq_refl))
      as (e & r & Hj & He & D & Sr & Hinv).
    rewrite (TrimRight_cut z e j r Hj He D Hinv).
    assert (Hne : firstn e z <> []) by (apply firstn_not_nil; lia).
    split; split; try exact Hne.
    + destruct (unicode.IsSpace (fst (utf8.DecodeRuneInString (firstn e z)))) eqn:Sx;
        [|reflexivity].
      pose proof (DecodeRune_space_app (firstn e z) (skipn e z) Hne Sx) as Happ.
      rewrite firstn_skipn in Happ. rewrite Happ, Sx in Hs. discriminate.
    + rewrite D. exact Sr.
  - pose proof (lastIndexFunc_loop_None _ _ _ L Hl (Nat.le_refl _) (Nat.le_refl _)) as H.
    rewrite H in Hs. discriminate.
Qed.

Lemma TrimLeftFunc_cases (w : gostring) :
  strings.TrimLeftFunc w unicode.IsSpace = []
  \/ (front_ok (strings.TrimLeftFunc w unicode.IsSpace)
      /\ exists i, i < length w /\ strings.TrimLeftFunc w unicode.IsSpace = skipn i w).
Proof.
  unfold strings.TrimLeftFunc, strings.indexFunc.
  destruct (strings.indexFunc_loop (length w) w unicode.IsSpace false 0) as [i|] eqn:E.
  - right. apply indexFunc_loop_Some in E as (_ & Hi & Hs).
    split; [split; [apply skipn_not_nil; exact Hi | exact Hs] | eauto].
  - left. reflexivity.
Qed.

Lemma TrimLeftFunc_front_ok (x : gostring) :
  front_ok x -> strings.TrimLeftFunc x unicode.IsSpace = x.
Proof.
  intros [Hx Hs]. unfold strings.TrimLeftFunc, strings.indexFunc.
  destruct x as [|c t]; [congruence|]. simpl length.
  simpl strings.indexFunc_loop. change (drop 0 (c :: t)) with (c :: t).
  destruct (utf8.DecodeRuneInString (c :: t)) as [r size]. simpl in Hs.
  rewrite eqb_false_r, Hs. reflexivity.
Qed.

(** ** [TrimSpace] *)

Lemma DecodeLast_ascii_last (x : gostring) :
  x <> [] -> (byteAt x (length x - 1) < 0x80)%Z ->
  utf8.DecodeLastRuneInString x = (byteAt x (length x - 1), 1).
Proof.
  intros Hx H. assert (Hl : 0 < length x) by (destruct x; [congruence | simpl; lia]).
  unfold utf8.DecodeLastRuneInString.
  rewrite (proj2 (Nat.eqb_neq _ _)) by lia.
  rewrite (proj2 (Z.ltb_lt _ _)) by exact H. reflexivity.
Qed.

Lemma front_ok_ascii (x : gostring) :
  x <> [] -> (byteAt x 0 < 0x80)%Z ->
  (front_ok x <-> strings.asciiSpace (byteAt x 0) = false).
Proof.
  intros Hx Hb. unfold front_ok. rewrite DecodeRune_ascii by assumption. simpl fst.
  rewrite IsSpace_ascii by (pose proof (byteAt_range x 0); lia). tauto.
Qed.

Lemma back_ok_ascii (x : gostring) :
  x <> [] -> (byteAt x (length x - 1) < 0x80)%Z ->
  (back_ok x <-> strings.asciiSpace (byteAt x (length x - 1)) = false).
Proof.
  intros Hx Hb. unfold back_ok. rewrite DecodeLast_ascii_last by assumption. simpl fst.
  rewrite IsSpace_ascii by (pose proof (byteAt_range x (length x - 1)); lia). tauto.
Qed.

Lemma TrimSpace_cons (c : ascii) (s' : gostring) :
  strings.TrimSpace (c :: s') =
  if (utf8.RuneSelf <=? byte_val c)%Z then strings.TrimFunc (c :: s') unicode.IsSpace
  else if strings.asciiSpace (byte_val c) then strings.TrimSpace s'
       else strings.TrimSpace_stop (c :: s') (length (c :: s')).
Proof. reflexivity. Qed.

Lemma TrimSpace_stop_S (s : gostring) (stop' : nat) :
  strings.TrimSpace_stop s (S stop') =
  if (utf8.RuneSelf <=? byteAt s stop')%Z
  then strings.TrimRightFunc (firstn (S stop') s) unicode.IsSpace
  else if strings.asciiSpace (byteAt s stop') then strings.TrimSpace_stop s stop'
       else firstn (S stop') s.
Proof. reflexivity. Qed.

Lemma TrimRightFunc_nil (f : Z -> bool) : strings.TrimRightFunc [] f = [].
Proof. reflexivity. Qed.

Lemma TrimSpace_stop_ok (z : gostring) :
  z <> [] -> (byteAt z 0 < 0x80)%Z -> strings.asciiSpace (byteAt z 0) = false ->
  forall stop,
    stop <= length z -> strings.TrimSpace_stop z stop <> [] ->
    front_ok (strings.TrimSpace_stop z stop) /\ back_ok (strings.TrimSpace_stop z stop).
Proof.
  intros Hz Hb Hs. induction stop as [|stop IH]; intros Hl;
    [intros H; exfalso; apply H; reflexivity|].
  rewrite TrimSpace_stop_S.
  assert (Hx : firstn (S stop) z <> []) by (apply firstn_not_nil; lia).
  assert (Hf : front_ok (firstn (S stop) z)).
  { apply front_ok_ascii; rewrite ?byteAt_firstn by lia; assumption. }
  unfold utf8.RuneSelf. destruct (Z.leb_spec 0x80 (byteAt z stop)) as [H|H].
  - intros _. apply TrimRightFunc_front_ok. exact Hf.
  - destruct (strings.asciiSpace (byteAt z stop)) eqn:A.
    + apply IH. lia.
    + intros _. split; [exact Hf|].
      assert (Hlast : byteAt (firstn (S stop) z) (length (firstn (S stop) z) - 1) = byteAt z stop).
      { rewrite length_firstn, Nat.min_l by lia.
        replace (S stop - 1) with stop by lia. apply byteAt_firstn. lia. }
      apply back_ok_ascii; rewrite ?Hlast; assumption.
Qed.

(** What [TrimSpace] returns, unless it is empty, starts and ends with a
    character that is not white space. *)
Lemma TrimSpace_ok (s : gostring) :
  strings.TrimSpace s <> [] ->
  front_ok (strings.TrimSpace s) /\ back_ok (strings.TrimSpace s).
Proof.
  induction s as [|c s IH]; [intros H; exfalso; apply H; reflexivity|].
  rewrite TrimSpace_cons. unfold utf8.RuneSelf.
  destruct (Z.leb_spec 0x80 (byte_val c)) as [H|H].
  - unfold strings.TrimFunc.
    destruct (TrimLeftFunc_cases (c :: s)) as [E | [Hf _]].
    + rewrite E, TrimRightFunc_nil. congruence.
    + intros _. apply TrimRightFunc_front_ok. exact Hf.
  - destruct (strings.asciiSpace (byte_val c)) eqn:A; [exact IH|].
    apply TrimSpace_stop_ok; [discriminate | exact H | exact A | reflexivity].
Qed.

(** A string that starts and ends with a character that is not white
    space is left alone by [TrimSpace]. *)
Lemma TrimSpace_fixed (x : gostring) :
  front_ok x -> back_ok x -> strings.TrimSpace x = x.
Proof.
  intros Hf Hb. destruct x as [|c t] eqn:Ex; [destruct Hf; congruence|].
  rewrite TrimSpace_cons. unfold utf8.RuneSelf.
  destruct (Z.leb_spec 0x80 (byte_val c)) as [H|H].
  - unfold strings.TrimFunc.
    rewrite TrimLeftFunc_front_ok by exact Hf. apply TrimRightFunc_back_ok. exact Hb.
  - assert (A : strings.asciiSpace (byte_val c) = false).
    { apply (front_ok_ascii (c :: t)); [discriminate | exact H | exact Hf]. }
    rewrite A. simpl length. rewrite TrimSpace_stop_S.
    change (take (S (length t)) (c :: t)) with (firstn (length (c :: t)) (c :: t)).
    rewrite firstn_all. unfold utf8.RuneSelf.
    destruct (Z.leb_spec 0x80 (byteAt (c :: t) (length t))) as [H'|H'].
    + apply TrimRightFunc_back_ok. exact Hb.
    + assert (A' : strings.asciiSpace (byteAt (c :: t) (length t)) = false).
      { replace (length t) with (length (c :: t) - 1) by (simpl; lia).
        apply back_ok_ascii; [discriminate | | exact Hb].
        replace (length (c :: t) - 1) with (length t) by (simpl; lia). exact H'. }
      rewrite A'. reflexivity.
Qed.

Lemma TrimSpace_idempotent (s : gostring) :
  strings.TrimSpace (strings.TrimSpace s) = strings.TrimSpace s.
Proof.
  destruct (strings.TrimSpace s) as [|c t] eqn:E; [reflexivity|].
  rewrite <- E. assert (H : strings.TrimSpace s <> []) by (rewrite E; discriminate).
  apply TrimSpace_ok in H as [Hf Hb]. apply TrimSpace_fixed; assumption.
Qed.

(** [TrimSpace] returns a piece of its argument. *)
Lemma TrimSpace_stop_prefix (z : gostring) (stop : nat) :
  exists k, strings.TrimSpace_stop z stop = firstn k z.
Proof.
  induction stop as [|stop IH]; [exists 0; reflexivity|].
  rewrite TrimSpace_stop_S. destruct (utf8.RuneSelf <=? byteAt z stop)%Z.
  - destruct (TrimRightFunc_prefix (firstn (S stop) z) unicode.IsSpace) as [k ->].
    rewrite firstn_firstn. eauto.
  - destruct (strings.asciiSpace (byteAt z stop)); eauto.
Qed.

Lemma TrimSpace_infix (s : gostring) :
  exists a b, s = a ++ strings.TrimSpace s ++ b.
Proof.
  induction s as [|c s (a & b & IH)]; [exists [], []; reflexivity|].
  rewrite TrimSpace_cons. destruct (utf8.RuneSelf <=? byte_val c)%Z.
  - unfold strings.TrimFunc.
    destruct (TrimRightFunc_prefix (strings.TrimLeftFunc (c :: s) unicode.IsSpace)
                                   unicode.IsSpace) as [k ->].
    unfold strings.TrimLeftFunc.
    destruct (strings.indexFunc (c :: s) unicode.IsSpace false) as [i|].
    + exists (firstn i (c :: s)), (skipn k (skipn i (c :: s))).
      rewrite firstn_skipn, firstn_skipn. reflexivity.
    + exists [], (c :: s). rewrite firstn_nil. reflexivity.
  - destruct (strings.asciiSpace (byte_val c)).
    + exists (c :: a), b. simpl. rewrite <- IH. reflexivity.
    + destruct (TrimSpace_stop_prefix (c :: s) (length (c :: s))) as [k ->].
      exists [], (skipn k (c :: s)). simpl app. rewrite firstn_skipn. reflexivity.
Qed.

Lemma TrimSpace_length (s : gostring) : length (strings.TrimSpace s) <= length s.
Proof.
  destruct (TrimSpace_infix s) as (a & b & E).
  rewrite E at 2. rewrite !length_app. lia.
Qed.

(** A string that ends with an ASCII byte other than a space is not
    trimmed to nothing. *)
Lemma TrimSpace_last_ascii (s : gostring) :
  s <> [] -> (byteAt s (length s - 1) < 0x80)%Z ->
  strings.asciiSpace (byteAt s (length s - 1)) = false ->
  strings.TrimSpace s <> [].
Proof.
  induction s as [|c t IH]; [congruence|]. intros _ Hb Ha.
  assert (Hback : back_ok (c :: t)) by (apply back_ok_ascii; [discriminate | assumption..]).
  rewrite TrimSpace_cons. unfold utf8.RuneSelf.
  destruct (Z.leb_spec 0x80 (byte_val c)) as [H|H].
  - unfold strings.TrimFunc, strings.TrimLeftFunc, strings.indexFunc.
    destruct (strings.indexFunc_loop (length (c :: t)) (c :: t) unicode.IsSpace false 0)
      as [i|] eqn:E.
    + apply indexFunc_loop_Some in E as (_ & Hi & _).
      assert (Hy : skipn i (c :: t) <> []) by (apply skipn_not_nil; exact Hi).
      assert (Hlast : byteAt (skipn i (c :: t)) (length (skipn i (c :: t)) - 1)
                      = byteAt (c :: t) (length (c :: t) - 1)).
      { rewrite byteAt_skipn, length_skipn. f_equal. lia. }
      rewrite TrimRightFunc_back_ok; [exact Hy|].
      apply back_ok_ascii; rewrite ?Hlast; assumption.
    + apply indexFunc_loop_None in E; [|simpl; lia|lia].
      destruct Hback as [_ Hback]. rewrite E in Hback. discriminate.
  - destruct (strings.asciiSpace (byte_val c)) eqn:A.
    + destruct t as [|c' t'].
      * simpl in Ha. unfold byteAt in Ha. simpl in Ha. rewrite A in Ha. discriminate.
      * replace (length (c :: c' :: t') - 1) with (S (length (c' :: t') - 1)) in Hb, Ha
          by (simpl; lia).
        rewrite byteAt_cons_S in Hb, Ha.
        apply IH; [discriminate | exact Hb | exact Ha].
    + replace (length (c :: t) - 1) with (length t) in Hb, Ha by (simpl; lia).
      simpl length. rewrite TrimSpace_stop_S.
      rewrite (proj2 (Z.leb_gt _ _)) by exact Hb. rewrite Ha. discriminate.
Qed.

(** ** Counting characters *)

Lemma RuneCount_loop_le (fuel : nat) (s : gostring) :
  utf8.RuneCount_loop fuel s <= length s.
Proof.
  revert s. induction fuel as [|fuel IH]; intros s; simpl; [lia|].
  destruct s as [|c t]; [simpl; lia|].
  destruct (utf8.DecodeRuneInString (c :: t)) as [r n] eqn:D.
  pose proof (DecodeRune_size (c :: t) r n ltac:(discriminate) D) as Hn.
  simpl snd. specialize (IH (skipn n (c :: t))). rewrite length_skipn in IH. lia.
Qed.

Lemma RuneCountInString_le (s : gostring) : utf8.RuneCountInString s <= length s.
Proof. apply RuneCount_loop_le. Qed.

(** ** [sanitizeMessage] *)

Lemma Contains_cons (x : ascii) (s p : gostring) :
  strings.Contains (x :: s) p = strings.HasPrefix (x :: s) p || strings.Contains s p.
Proof.
  unfold strings.Contains. rewrite Index_cons.
  destruct (strings.HasPrefix (x :: s) p); [reflexivity|].
  destruct (strings.Index s p); reflexivity.
Qed.

Lemma HasPrefix_app_inv (p w v : gostring) :
  strings.HasPrefix (w ++ v) p = true ->
  strings.HasPrefix w p = true \/ exists c, In c v /\ In c p.
Proof.
  revert w. induction p as [|d p IH]; intros w H.
  - left. destruct w; reflexivity.
  - destruct w as [|y w].
    + right. simpl app in H. apply HasPrefix_spec in H as [t ->].
      exists d. split; left; reflexivity.
    + simpl in H. apply andb_true_iff in H as [Hy H].
      destruct (IH w H) as [Hw | (c & Hv & Hp)].
      * left. simpl. rewrite Hy, Hw. reflexivity.
      * right. exists c. split; [exact Hv | right; exact Hp].
Qed.

(** Appending bytes that do not occur in [p] creates no instance of [p]. *)
Lemma Contains_app_disjoint (u v p : gostring) :
  p <> [] -> (forall c, In c v -> ~ In c p) ->
  strings.Contains u p = false -> strings.Contains (u ++ v) p = false.
Proof.
  intros Hp Hd. induction u as [|x u IH]; intros Hu.
  - apply Contains_false. intros a b E. simpl in E.
    destruct p as [|c p']; [congruence|].
    apply (Hd c); [|left; reflexivity].
    rewrite E. apply in_or_app. right. left. reflexivity.
  - rewrite Contains_cons in Hu. apply orb_false_iff in Hu as [H1 H2].
    rewrite <- app_comm_cons, Contains_cons. apply orb_false_iff. split; [|exact (IH H2)].
    destruct (strings.HasPrefix (x :: u ++ v) p) eqn:E; [|reflexivity].
    rewrite app_comm_cons in E. apply HasPrefix_app_inv in E as [E | (c & Hv & Hc)].
    + congruence.
    + exfalso. exact (Hd c Hv Hc).
Qed.

Lemma sanitizeMessage_step_app (r : list gostring) (l : gostring) :
  sanitizeMessage_step r l = r ++ sanitizeMessage_step [] l.
Proof.
  unfold sanitizeMessage_step.
  destruct (strings.Contains l (str "Signed-off-by") || (length (strings.TrimSpace l) =? 0));
    [rewrite app_nil_r|]; reflexivity.
Qed.

Lemma fold_sanitizeMessage_step (lines : list gostring) (r : list gostring) :
  fold_left sanitizeMessage_step lines r
  = r ++ flat_map (sanitizeMessage_step []) lines.
Proof.
  revert r. induction lines as [|l lines IH]; intros r; simpl.
  - rewrite app_nil_r. reflexivity.
  - rewrite IH, (sanitizeMessage_step_app r l), <- app_assoc. reflexivity.
Qed.

Lemma sanitizeMessage_eq (msg : gostring) :
  sanitizeMessage msg
  = strings.Join (flat_map (sanitizeMessage_step []) (splitc "010"%char msg)) newline.
Proof.
  unfold sanitizeMessage. unfold newline at 1. rewrite Split_byte.
  rewrite fold_sanitizeMessage_step. reflexivity.
Qed.

(** What a kept line becomes. *)
Lemma sanitizeMessage_step_In (l x : gostring) :
  In x (sanitizeMessage_step [] l) ->
  strings.Contains l (str "Signed-off-by") = false
  /\ strings.TrimSpace l <> []
  /\ x = strings.TrimSpace (if 80 <? length l then firstn 80 l ++ str " ..." else l).
Proof.
  unfold sanitizeMessage_step.
  destruct (strings.Contains l (str "Signed-off-by")) eqn:C; [intros []|].
  destruct (length (strings.TrimSpace l) =? 0) eqn:T; [intros []|].
  apply Nat.eqb_neq in T. simpl. intros [<-|[]].
  repeat split. intros E. rewrite E in T. apply T. reflexivity.
Qed.

Lemma marker_disjoint (c : ascii) :
  In c (str " ...") -> ~ In c (str "Signed-off-by").
Proof.
  simpl. intros [<-|[<-|[<-|[<-|[]]]]] H;
    repeat (destruct H as [H|H]; [discriminate|]); exact H.
Qed.

Lemma truncated_last (u : gostring) :
  byteAt (u ++ str " ...") (length (u ++ str " ...") - 1) = 46%Z.
Proof.
  change (str " ...") with (str " .." ++ str ".").
  rewrite app_assoc.
  replace (length ((u ++ str " ..") ++ str ".") - 1) with (length (u ++ str " ..") + 0)
    by (rewrite (length_app (u ++ str " ..")); simpl; lia).
  rewrite byteAt_app_r. reflexivity.
Qed.

(** The lines of the text that [Join] makes are the joined lines. *)
Lemma Lines_Join (r : list gostring) (x : gostring) :
  Forall (fun l => ~ In "010"%char l) r ->
  In x (Lines (strings.Join r newline)) -> In x r.
Proof.
  intros HF. destruct r as [|a r]; [intros []|].
  assert (E : strings.Split (strings.Join (a :: r) newline) newline = a :: r).
  { unfold newline. rewrite Split_byte. apply splitc_Join; [discriminate | exact HF]. }
  unfold Lines. destruct (strings.Join (a :: r) newline); [intros [] | rewrite E; auto].
Qed.

Lemma kept_line (msg x : gostring) :
  In x (flat_map (sanitizeMessage_step []) (splitc "010"%char msg)) ->
  ~ In "010"%char x /\ length x <= 84
  /\ strings.Contains x (str "Signed-off-by") = false
  /\ strings.TrimSpace x <> [].
Proof.
  intros H. apply in_flat_map in H as (l & Hl & Hx).
  apply splitc_elems in Hl. apply sanitizeMessage_step_In in Hx as (HC & HT & ->).
  set (l' := if 80 <? length l then firstn 80 l ++ str " ..." else l).
  assert (Hn : ~ In "010"%char l').
  { unfold l'. destruct (80 <? length l); [|exact Hl].
    intros H. apply in_app_or in H as [H|H].
    - apply Hl. rewrite <- (firstn_skipn 80 l). apply in_or_app. left. exact H.
    - simpl in H. repeat (destruct H as [H|H]; [discriminate|]). exact H. }
  assert (Hlen : length l' <= 84).
  { unfold l'. destruct (80 <? length l) eqn:E.
    - rewrite length_app, length_firstn. change (length (str " ...")) with 4. lia.
    - apply Nat.ltb_ge in E. lia. }
  assert (HC' : strings.Contains l' (str "Signed-off-by") = false).
  { unfold l'. destruct (80 <? length l); [|exact HC].
    apply Contains_app_disjoint; [discriminate | exact marker_disjoint |].
    apply (Contains_false_infix [] (firstn 80 l) (skipn 80 l)).
    simpl app. rewrite firstn_skipn. exact HC. }
  assert (HT' : strings.TrimSpace l' <> []).
  { unfold l'. destruct (80 <? length l); [|exact HT].
    apply TrimSpace_last_ascii.
    - destruct (firstn 80 l); discriminate.
    - rewrite truncated_last. lia.
    - rewrite truncated_last. reflexivity. }
  destruct (TrimSpace_infix l') as (a & b & E).
  repeat split.
  - intros H. apply Hn. rewrite E. apply in_or_app. right. apply in_or_app. left. exact H.
  - pose proof (TrimSpace_length l'). lia.
  - apply (Contains_false_infix a _ b). rewrite <- E. exact HC'.
  - rewrite TrimSpace_idempotent. exact HT'.
Qed.

(** C5: every line of the sanitized message has at most 84 bytes, hence at
    most 84 characters, does not contain "Signed-off-by", and is not made
    of white space only (it is not dropped by the test of the sanitizer
    itself). *)
Theorem sanitizeMessage_lines (msg : gostring) :
  Forall (fun x => length x <= 84
                   /\ utf8.RuneCountInString x <= 84
                   /\ strings.Contains x (str "Signed-off-by") = false
                   /\ strings.TrimSpace x <> [])
         (Lines (sanitizeMessage msg)).
Proof.
  apply List.Forall_forall. intros x Hx. rewrite sanitizeMessage_eq in Hx.
  apply Lines_Join in Hx.
  - destruct (kept_line msg x Hx) as (_ & H1 & H2 & H3).
    pose proof (RuneCountInString_le x). repeat split; try assumption; lia.
  - apply List.Forall_forall. intros y Hy. exact (proj1 (kept_line msg y Hy)).
Qed.

(** The sanitized message is empty exactly when no line is kept. *)
Lemma sanitizeMessage_empty (msg : gostring) :
  sanitizeMessage msg = [] <->
  flat_map (sanitizeMessage_step []) (splitc "010"%char msg) = [].
Proof.
  rewrite sanitizeMessage_eq.
  destruct (flat_map (sanitizeMessage_step []) (splitc "010"%char msg)) as [|a r] eqn:E.
  - split; reflexivity.
  - split; [|discriminate]. intros H. exfalso.
    assert (Ha : strings.TrimSpace a <> []).
    { apply (kept_line msg a). rewrite E. left. reflexivity. }
    destruct r as [|b r]; simpl in H.
    + subst a. apply Ha. reflexivity.
    + apply app_eq_nil in H as [-> _]. apply Ha. reflexivity.
Qed.

Lemma sanitized_lines_kept (ls : list gostring) :
  Forall sanitized_line ls -> flat_map (sanitizeMessage_step []) ls = ls.
Proof.
  induction 1 as [|l ls (HC & HT & HL & HE) _ IH]; [reflexivity|].
  simpl. rewrite IH. unfold sanitizeMessage_step. rewrite HC.
  assert (Q : (length (strings.TrimSpace l) =? 0) = false).
  { apply Nat.eqb_neq. destruct (strings.TrimSpace l); [congruence | discriminate]. }
  rewrite Q. simpl orb. cbv iota.
  rewrite (proj2 (Nat.ltb_ge _ _)) by exact HL. rewrite HE. reflexivity.
Qed.

(** With the lengths counted in bytes, as [len] counts them, the
    sanitizer leaves a sanitized message alone: a message whose lines are
    all free of "Signed-off-by", not blank, free of surrounding white space
    and at most 80 bytes long is returned unchanged. *)
Theorem sanitizeMessage_sanitized (msg : gostring) :
  Forall sanitized_line (Lines msg) -> sanitizeMessage msg = msg.
Proof.
  intros H. destruct msg as [|c t] eqn:E; [reflexivity|]. rewrite <- E in *.
  assert (HL : Lines msg = splitc "010"%char msg).
  { subst msg. unfold Lines, newline. apply Split_byte. }
  rewrite HL in H. rewrite sanitizeMessage_eq, sanitized_lines_kept by exact H.
  apply Join_splitc.
Qed.

Lemma sanitizeMessage_sanitized_witness :
  sanitizeMessage (str "Fix the parser" ++ newline ++ str "and its tests")
  = str "Fix the parser" ++ newline ++ str "and its tests".
Proof.
  apply sanitizeMessage_sanitized.
  repeat constructor; vm_compute; try discriminate; lia.
Defined.

(** C6: the source says of its cut that it trims "the length of each line
    to 80 characters", and measures the line with [len], in bytes.  On
    [accented_line], a message of one line of 41 characters in 82 bytes,
    free of "Signed-off-by" and of surrounding white space, the sanitizer
    does not return the message: it cuts the line after its 40th
    character and appends the marker. *)
Lemma sanitizeMessage_sanitized_chars_fails :
  Lines accented_line = [accented_line]
  /\ utf8.RuneCountInString accented_line = 41
  /\ length accented_line = 82
  /\ Forall sanitized_line_chars (Lines accented_line)
  /\ sanitizeMessage accented_line
     = concat (repeat [ascii_of_nat 195; ascii_of_nat 169] 40) ++ str " ..."
  /\ sanitizeMessage accented_line <> accented_line.
Proof.
  split; [vm_compute; reflexivity|]. split; [vm_compute; reflexivity|].
  split; [vm_compute; reflexivity|]. split; [|split].
  - repeat constructor; vm_compute; try discriminate; lia.
  - vm_compute. reflexivity.
  - vm_compute. discriminate.
Qed.

(** C10: a kept line of more than 80 bytes becomes its first 80 bytes
    followed by the marker, then trimmed; the cut is at byte 80 whatever
    the characters are. *)
Theorem sanitizeMessage_cuts_bytes (l : gostring) :
  80 < length l ->
  strings.Contains l (str "Signed-off-by") = false ->
  strings.TrimSpace l <> [] ->
  (forall r, sanitizeMessage_step r l
             = r ++ [strings.TrimSpace (firstn 80 l ++ str " ...")])
  /\ (~ In "010"%char l ->
      sanitizeMessage l = strings.TrimSpace (firstn 80 l ++ str " ...")).
Proof.
  intros HL HC HT.
  assert (Hstep : forall r, sanitizeMessage_step r l
                            = r ++ [strings.TrimSpace (firstn 80 l ++ str " ...")]).
  { intros r. unfold sanitizeMessage_step. rewrite HC.
    assert (Q : (length (strings.TrimSpace l) =? 0) = false).
    { apply Nat.eqb_neq. destruct (strings.TrimSpace l); [congruence | discriminate]. }
    rewrite Q. simpl orb. cbv iota.
    rewrite (proj2 (Nat.ltb_lt _ _)) by exact HL. reflexivity. }
  split; [exact Hstep|].
  intros Hn. rewrite sanitizeMessage_eq, splitc_notin by exact Hn.
  simpl flat_map. rewrite Hstep. reflexivity.
Qed.

(** On [straddling_line] the cut falls inside a character: the first of
    its two bytes stays, alone, before the marker. *)
Lemma sanitizeMessage_cuts_bytes_witness :
  sanitizeMessage straddling_line
  = repeat "a"%char 79 ++ [ascii_of_nat 195] ++ str " ...".
Proof.
  rewrite (proj2 (sanitizeMessage_cuts_bytes straddling_line
                    ltac:(vm_compute; lia) ltac:(vm_compute; reflexivity)
                    ltac:(vm_compute; discriminate))).
  - vm_compute. reflexivity.
  - vm_compute. intros H. repeat (destruct H as [H|H]; [discriminate|]). exact H.
Defined.

(** ** [getRepositoriesFromPayload] *)

Lemma fresh_false (acc : list gostring) (x : gostring) :
  fresh acc x = false <-> In x acc.
Proof.
  unfold fresh. rewrite negb_false_iff, existsb_exists. split.
  - intros (r & Hr & E). apply bool_decide_eq_true in E. subst r. exact Hr.
  - intros H. exists x. split; [exact H | apply bool_decide_eq_true; reflexivity].
Qed.

Lemma fresh_true (acc : list gostring) (x : gostring) :
  fresh acc x = true <-> ~ In x acc.
Proof.
  rewrite <- fresh_false. destruct (fresh acc x); split; congruence.
Qed.

Lemma filter_filter {A : Type} (f g : A -> bool) (l : list A) :
  List.filter f (List.filter g l) = List.filter (fun x => g x && f x) l.
Proof.
  induction l as [|a l IH]; [reflexivity|]. simpl.
  destruct (g a); simpl; [destruct (f a)|]; rewrite IH; reflexivity.
Qed.

Lemma payload_step_eq (acc : list gostring) (t : Tag) :
  payload_step acc t
  = acc ++ List.filter (fresh acc) (source_locations [t]).
Proof.
  unfold payload_step, source_locations. simpl flat_map.
  destruct (Annotations t !! source_location) as [v|]; [|rewrite app_nil_r; reflexivity].
  destruct (length v =? 0); [rewrite app_nil_r; reflexivity|].
  simpl. unfold fresh.
  destruct (existsb (fun r => bool_decide (v = r)) acc); simpl;
    [rewrite app_nil_r|]; reflexivity.
Qed.

Lemma fold_payload_step (tags : list Tag) (acc : list gostring) :
  fold_left payload_step tags acc
  = acc ++ List.filter (fresh acc) (first_occurrences (source_locations tags)).
Proof.
  revert acc. induction tags as [|t tags IH]; intros acc; simpl fold_left.
  - simpl. rewrite app_nil_r. reflexivity.
  - rewrite IH, payload_step_eq.
    assert (Hc : source_locations (t :: tags)
                 = source_locations [t] ++ source_locations tags).
    { unfold source_locations. simpl. rewrite app_nil_r. reflexivity. }
    rewrite Hc. clear Hc.
    assert (Ht : source_locations [t] = [] \/ exists v, source_locations [t] = [v]).
    { unfold source_locations. simpl.
      destruct (Annotations t !! source_location) as [v|]; [|left; reflexivity].
      destruct (length v =? 0); [left; reflexivity | right; exists v; reflexivity]. }
    destruct Ht as [-> | [v ->]].
    + simpl. rewrite app_nil_r. reflexivity.
    + simpl. destruct (fresh acc v) eqn:Fv.
      * rewrite <- app_assoc. simpl. do 2 f_equal.
        rewrite filter_filter. apply filter_ext. intros y.
        unfold fresh. rewrite existsb_app. simpl. rewrite orb_false_r, negb_orb.
        apply andb_comm.
      * rewrite app_nil_r. f_equal.
        rewrite filter_filter. apply filter_ext. intros y.
        destruct (bool_decide (y = v)) eqn:E; [|reflexivity].
        apply bool_decide_eq_true in E. subst y. simpl. exact Fv.
Qed.

Lemma first_occurrences_In (l : list gostring) (x : gostring) :
  In x (first_occurrences l) <-> In x l.
Proof.
  induction l as [|a l IH]; [reflexivity|]. simpl. rewrite filter_In, IH.
  destruct (decide (x = a)) as [->|Hn]; [tauto|].
  rewrite negb_true_iff, bool_decide_eq_false. split.
  - intros [H|[H _]]; auto.
  - intros [H|H]; [congruence | auto].
Qed.

Lemma first_occurrences_NoDup (l : list gostring) : List.NoDup (first_occurrences l).
Proof.
  induction l as [|a l IH]; simpl; constructor.
  - rewrite filter_In, negb_true_iff, bool_decide_eq_false. intros [_ H]. congruence.
  - apply List.NoDup_filter. exact IH.
Qed.

(** C7: on a payload that the tool and the decoder deliver,
    [getRepositoriesFromPayload] returns the non-empty source-location
    values of the tags, each one where it first occurs, none twice; a tag
    without the annotation, or with an empty value, adds nothing. *)
Theorem getRepositoriesFromPayload_first_occurrences
        (w : World) (payload : gostring) (release : Release) :
  release_info w payload = inl release ->
  exists out,
    getRepositoriesFromPayload w payload = inl out
    /\ out = first_occurrences (source_locations (Tags (Spec (Refs release))))
    /\ List.NoDup out
    /\ forall x, In x out <-> In x (source_locations (Tags (Spec (Refs release)))).
Proof.
  intros H. unfold getRepositoriesFromPayload. rewrite H.
  eexists. split; [reflexivity|]. rewrite fold_payload_step. simpl app.
  assert (E : List.filter (fresh [])
                (first_occurrences (source_locations (Tags (Spec (Refs release)))))
              = first_occurrences (source_locations (Tags (Spec (Refs release))))).
  { rewrite (filter_ext (fresh []) (fun _ => true)) by reflexivity.
    induction (first_occurrences _) as [|a l IH]; simpl; [|rewrite IH]; reflexivity. }
  rewrite E. split; [reflexivity|]. split.
  - apply first_occurrences_NoDup.
  - apply first_occurrences_In.
Qed.

Lemma getRepositoriesFromPayload_first_occurrences_witness :
  exists out,
    getRepositoriesFromPayload example_world [] = inl out
    /\ out = first_occurrences (source_locations payload_tags)
    /\ List.NoDup out
    /\ forall x, In x out <-> In x (source_locations payload_tags).
Proof.
  apply (getRepositoriesFromPayload_first_occurrences example_world []
           {| Refs := {| Spec := {| Tags := payload_tags |} |} |}).
  reflexivity.
Defined.

(** The example of the specification: the value seen twice comes once. *)
Example getRepositoriesFromPayload_example :
  getRepositoriesFromPayload example_world [] = inl [repo_api; repo_oc].
Proof. vm_compute. reflexivity. Qed.

(** ** Insertion sort keeps the promise of [sort.Slice] *)

Section InsertionSort.

Context {A : Type} (less : A -> A -> bool).
Hypothesis less_asym : forall a b, less a b = true -> less b a = false.
Hypothesis less_negtrans :
  forall a b c, less a b = false -> less b c = false -> less a c = false.

Lemma insert_back_Permutation (x : A) (rs : list A) :
  Permutation (insert_back less x rs) (x :: rs).
Proof.
  induction rs as [|y rs IH]; simpl; [reflexivity|].
  destruct (less x y); [|reflexivity].
  rewrite IH. apply perm_swap.
Qed.

Lemma insert_back_sorted (x : A) (rs : list A) :
  StronglySorted (fun a b => less a b = false) rs ->
  StronglySorted (fun a b => less a b = false) (insert_back less x rs).
Proof.
  induction 1 as [|y rs Hs IH Hy]; simpl.
  - constructor; constructor.
  - destruct (less x y) eqn:E.
    + constructor; [exact IH|].
      rewrite (insert_back_Permutation x rs). constructor; [|exact Hy].
      apply less_asym. exact E.
    + constructor; [constructor; assumption|].
      constructor; [exact E|].
      apply List.Forall_forall. intros e He.
      rewrite List.Forall_forall in Hy. apply (less_negtrans x y e E). apply Hy. exact He.
Qed.

Lemma fold_insert_back_Permutation (x acc : list A) :
  Permutation (fold_left (fun rs a => insert_back less a rs) x acc) (x ++ acc).
Proof.
  revert acc. induction x as [|a x IH]; intros acc; simpl; [reflexivity|].
  rewrite IH, insert_back_Permutation. symmetry. apply Permutation_middle.
Qed.

Lemma fold_insert_back_sorted (x acc : list A) :
  StronglySorted (fun a b => less a b = false) acc ->
  StronglySorted (fun a b => less a b = false)
                 (fold_left (fun rs a => insert_back less a rs) x acc).
Proof.
  revert acc. induction x as [|a x IH]; intros acc H; simpl; [exact H|].
  apply IH, insert_back_sorted, H.
Qed.

End InsertionSort.

Lemma StronglySorted_snoc {A : Type} (R : A -> A -> Prop) (l : list A) (a : A) :
  StronglySorted R l -> List.Forall (fun b => R b a) l -> StronglySorted R (l ++ [a]).
Proof.
  induction 1 as [|b l Hs IH Hb]; intros Ha; simpl.
  - constructor; constructor.
  - apply List.Forall_cons_iff in Ha as [Hba Ha]. constructor; [exact (IH Ha)|].
    apply List.Forall_app. split; [exact Hb | constructor; [exact Hba | constructor]].
Qed.

Lemma StronglySorted_rev {A : Type} (R : A -> A -> Prop) (l : list A) :
  StronglySorted R l -> StronglySorted (fun a b => R b a) (rev l).
Proof.
  induction 1 as [|b l Hs IH Hb]; simpl; [constructor|].
  apply StronglySorted_snoc; [exact IH|].
  apply List.Forall_forall. intros e He. apply List.in_rev in He.
  rewrite List.Forall_forall in Hb. exact (Hb e He).
Qed.

Lemma insertionSort_Permutation (A : Type) (x : list A) (less : A -> A -> bool) :
  Permutation x (insertionSort x less).
Proof.
  unfold insertionSort. rewrite <- Permutation_rev, fold_insert_back_Permutation.
  rewrite app_nil_r. reflexivity.
Qed.

Lemma insertionSort_sorted (A : Type) (x : list A) (less : A -> A -> bool) :
  (forall a b, less a b = true -> less b a = false) ->
  (forall a b c, less a b = false -> less b c = false -> less a c = false) ->
  StronglySorted (fun a b => less b a = false) (insertionSort x less).
Proof.
  intros H1 H2. unfold insertionSort.
  apply (StronglySorted_rev (fun a b => less a b = false)).
  apply fold_insert_back_sorted; [exact H1 | exact H2 | constructor].
Qed.

#[export] Instance insertionSorter : SliceSorter :=
  {| sort_Slice := @insertionSort;
     sort_Slice_Permutation := insertionSort_Permutation;
     sort_Slice_sorted := insertionSort_sorted |}.

(** The order of the final sort is a strict weak order, oldest first. *)
Lemma less_change_asym (a b : Change) : less_change a b = true -> less_change b a = false.
Proof.
  unfold less_change, time.After. rewrite Z.ltb_lt, Z.ltb_ge. lia.
Qed.

Lemma less_change_negtrans (a b c : Change) :
  less_change a b = false -> less_change b c = false -> less_change a c = false.
Proof.
  unfold less_change, time.After. rewrite !Z.ltb_ge. lia.
Qed.

Lemma sort_Slice_oldest_first `{SliceSorter} (cs : list Change) :
  oldest_first (sort_Slice cs less_change).
Proof.
  pose proof (sort_Slice_sorted Change cs less_change less_change_asym less_change_negtrans) as S.
  unfold oldest_first. induction S as [|a l Hs IH Ha]; constructor; [exact IH|].
  apply List.Forall_forall. intros b Hb. rewrite List.Forall_forall in Ha.
  specialize (Ha b Hb). unfold less_change, time.After in Ha. apply Z.ltb_ge in Ha. exact Ha.
Qed.

(** ** The task of one repository *)

Lemma task_unparsed (w : World) (options : ProcessOptions) (repository : gostring)
      (st : State) :
  parseRepositoryOrgName repository = None ->
  task w options repository st = (Some (errUnparsable repository), st).
Proof.
  intros H. unfold task, getRepositoryChanges. rewrite H. reflexivity.
Qed.

(** A task only appends: to the shared slice, to the log, to the calls. *)
Lemma task_parsed (w : World) (options : ProcessOptions) (repository : gostring)
      (organization name : gostring) (st : State) :
  parseRepositoryOrgName repository = Some (organization, name) ->
  exists st',
    task w options repository st = (None, st')
    /\ clock st' = clock st
    /\ changes st' = changes st ++ task_changes w options (clock st) repository
    /\ log st' = log st ++ task_log w options (clock st) repository
    /\ requests st' = requests st ++ [request_at options (clock st) organization name].
Proof.
  intros H. unfold task_changes, task_log, task, getRepositoryChanges. rewrite H.
  simpl clock.
  destruct (ListCommits w organization name _) as [commits|err]; simpl;
    eexists; (split; [reflexivity|]); simpl; rewrite ?app_nil_r; repeat split.
Qed.

(** ** The pool *)

Lemma tasks_fold (w : World) (options : ProcessOptions) (repositories : list gostring)
      (acc : list workpool.TaskHandler) :
  fold_left (fun tasks repository => tasks ++ [task w options repository]) repositories acc
  = acc ++ map (task w options) repositories.
Proof.
  revert acc. induction repositories as [|r rs IH]; intros acc; simpl.
  - rewrite app_nil_r. reflexivity.
  - rewrite IH, <- app_assoc. reflexivity.
Qed.

Lemma Do_fold (tasks : list workpool.TaskHandler) (p : workpool.WorkPool) :
  fold_left workpool.Do tasks p
  = {| workpool.workers := workpool.workers p;
       workpool.waitingQueue := workpool.waitingQueue p ++ tasks |}.
Proof.
  revert p. induction tasks as [|t ts IH]; intros p; simpl.
  - rewrite app_nil_r. destruct p; reflexivity.
  - rewrite IH. simpl. rewrite <- app_assoc. reflexivity.
Qed.

Lemma processRepositories_eq `{SliceSorter} (w : World) (options : ProcessOptions)
      (repositories : list gostring) (sched : workpool.Schedule) (st : State) :
  processRepositories w options repositories sched st
  = match workpool.run (length repositories) (Z.to_nat (Z.max 1 (Concurrency options)))
                       (map (task w options) repositories) sched (clock st)
                       (set_changes [] st) with
    | (Some err, st') => (inr err, st')
    | (None, st') =>
        (inl (sort_Slice (changes st') less_change),
         set_changes (sort_Slice (changes st') less_change) st')
    end.
Proof.
  unfold processRepositories. rewrite tasks_fold, Do_fold. simpl app.
  unfold workpool.Wait. simpl. rewrite length_map. reflexivity.
Qed.

Lemma workers_positive (max : Z) : 1 <= Z.to_nat (Z.max 1 max).
Proof. lia. Qed.

(** One round of the pool over the tasks of [r0 :: rest]. *)
Lemma run_S (w : World) (options : ProcessOptions) (n k : nat) (r0 : gostring)
      (rest : list gostring) (sched : workpool.Schedule) (start : time.Time)
      (st : State) :
  workpool.run (S n) k (map (task w options) (r0 :: rest)) sched start st
  = let i := workpool.pick (fst (workpool.next sched))
             mod (Nat.min k (length (r0 :: rest))) in
    match task w options (nth i (r0 :: rest) r0)
               (set_clock (start + Z.of_nat (workpool.started (fst (workpool.next sched))))%Z
                          st) with
    | (Some err, st') => (Some err, st')
    | (None, st') =>
        workpool.run n k
          (map (task w options) (firstn i (r0 :: rest) ++ skipn (S i) (r0 :: rest)))
          (snd (workpool.next sched)) start st'
    end.
Proof.
  cbn [workpool.run map]. destruct (workpool.next sched) as [step sched'].
  cbn [fst snd]. change (task w options r0 :: map (task w options) rest)
    with (map (task w options) (r0 :: rest)).
  rewrite length_map, (map_nth (task w options)).
  rewrite map_app, firstn_map, skipn_map. reflexivity.
Qed.

Lemma pick_in_range (p k len : nat) : 1 <= k -> 0 < len -> p mod (Nat.min k len) < len.
Proof.
  intros Hk Hl. pose proof (Nat.mod_upper_bound p (Nat.min k len)). lia.
Qed.

Lemma remove_picked {X : Type} (l : list X) (i : nat) (d : X) :
  i < length l ->
  exists A B, l = A ++ nth i l d :: B /\ firstn i l ++ skipn (S i) l = A ++ B.
Proof.
  intros Hi. destruct (nth_split l d Hi) as (A & B & E & HA).
  exists A, B. split; [exact E|].
  remember (nth i l d) as x eqn:Ex. clear Ex. subst l i.
  rewrite firstn_app, Nat.sub_diag, firstn_all. simpl firstn. rewrite app_nil_r.
  rewrite skipn_app, skipn_all2 by lia.
  replace (S (length A) - length A) with 1 by lia. reflexivity.
Qed.

Lemma changes_at_app (w : World) (options : ProcessOptions)
      (a b : list (time.Time * gostring)) :
  changes_at w options (a ++ b) = changes_at w options a ++ changes_at w options b.
Proof. apply flat_map_app. Qed.

Lemma logs_at_app (w : World) (options : ProcessOptions)
      (a b : list (time.Time * gostring)) :
  logs_at w options (a ++ b) = logs_at w options a ++ logs_at w options b.
Proof. apply flat_map_app. Qed.

Lemma changes_at_cons (w : World) (options : ProcessOptions)
      (p : time.Time * gostring) (l : list (time.Time * gostring)) :
  changes_at w options (p :: l)
  = task_changes w options (fst p) (snd p) ++ changes_at w options l.
Proof. reflexivity. Qed.

Lemma logs_at_cons (w : World) (options : ProcessOptions)
      (p : time.Time * gostring) (l : list (time.Time * gostring)) :
  logs_at w options (p :: l)
  = task_log w options (fst p) (snd p) ++ logs_at w options l.
Proof. reflexivity. Qed.

(** When every reference parses, the pool runs every task, whatever the
    schedule: each repository is fetched once, not before the start. *)
Lemma run_ok (w : World) (options : ProcessOptions) (k : nat) (start : time.Time) :
  1 <= k ->
  forall n repositories sched st,
    length repositories <= n ->
    List.Forall (fun r => parseRepositoryOrgName r <> None) repositories ->
    exists runs st',
      workpool.run n k (map (task w options) repositories) sched start st = (None, st')
      /\ map snd runs = repositories
      /\ List.Forall (fun p => (start <= fst p)%Z) runs
      /\ Permutation (changes st') (changes st ++ changes_at w options runs)
      /\ Permutation (log st') (log st ++ logs_at w options runs).
Proof.
  intros Hk. induction n as [|n IH]; intros repositories sched st Hl Hp.
  - destruct repositories; [|simpl in Hl; lia].
    exists [], st. simpl. rewrite !app_nil_r.
    split; [reflexivity|]. split; [reflexivity|]. split; [apply List.Forall_nil|].
    split; reflexivity.
  - destruct repositories as [|r0 rest].
    + exists [], st. simpl. rewrite !app_nil_r.
      split; [reflexivity|]. split; [reflexivity|]. split; [apply List.Forall_nil|].
      split; reflexivity.
    + rewrite run_S. cbv zeta.
      set (i := workpool.pick (fst (workpool.next sched))
                mod (Nat.min k (length (r0 :: rest)))).
      set (now := (start + Z.of_nat (workpool.started (fst (workpool.next sched))))%Z).
      assert (Hi : i < length (r0 :: rest)) by (apply pick_in_range; simpl; lia).
      destruct (remove_picked (r0 :: rest) i r0 Hi) as (A & B & E & ->).
      set (r := nth i (r0 :: rest) r0) in *.
      assert (Hr : parseRepositoryOrgName r <> None).
      { rewrite List.Forall_forall in Hp. apply Hp. apply nth_In. exact Hi. }
      destruct (parseRepositoryOrgName r) as [[organization name]|] eqn:Er; [|congruence].
      destruct (task_parsed w options r organization name (set_clock now st) Er)
        as (st1 & -> & Hc1 & Hch1 & Hlg1 & _).
      assert (Hp' : List.Forall (fun r => parseRepositoryOrgName r <> None) (A ++ B)).
      { rewrite E in Hp. apply List.Forall_app in Hp as [HA HB].
        apply List.Forall_cons_iff in HB as [_ HB]. apply List.Forall_app. auto. }
      assert (Hl' : length (A ++ B) <= n).
      { rewrite E in Hl. rewrite length_app in *. simpl in Hl. lia. }
      destruct (IH (A ++ B) (snd (workpool.next sched)) st1 Hl' Hp')
        as (runs & st' & Hrun & Hmap & Ht & Hch & Hlg).
      apply map_eq_app in Hmap as (rA & rB & -> & HmA & HmB).
      exists (rA ++ (now, r) :: rB), st'.
      split; [exact Hrun|]. split; [|split; [|split]].
      * rewrite List.map_app. simpl. rewrite E. f_equal; [exact HmA|]. f_equal. exact HmB.
      * apply List.Forall_app in Ht as [HtA HtB].
        apply List.Forall_app. split; [exact HtA|]. constructor; [|exact HtB].
        simpl. unfold now. lia.
      * rewrite Hch, Hch1. simpl changes. simpl clock.
        rewrite !changes_at_app, changes_at_cons. cbn [fst snd].
        rewrite <- !app_assoc. apply Permutation_app_head.
        rewrite !app_assoc. apply Permutation_app_tail. apply Permutation_app_comm.
      * rewrite Hlg, Hlg1. simpl log. simpl clock.
        rewrite !logs_at_app, logs_at_cons. cbn [fst snd].
        rewrite <- !app_assoc. apply Permutation_app_head.
        rewrite !app_assoc. apply Permutation_app_tail. apply Permutation_app_comm.
Qed.

(** When some reference does not parse, the pool ends with the error of
    such a reference, whatever the schedule. *)
Lemma run_error (w : World) (options : ProcessOptions) (k : nat) (start : time.Time) :
  1 <= k ->
  forall n repositories sched st,
    length repositories <= n ->
    (exists r, In r repositories /\ parseRepositoryOrgName r = None) ->
    exists r st',
      In r repositories /\ parseRepositoryOrgName r = None
      /\ workpool.run n k (map (task w options) repositories) sched start st
         = (Some (errUnparsable r), st').
Proof.
  intros Hk. induction n as [|n IH]; intros repositories sched st Hl (bad & Hin & Hbad).
  - destruct repositories; [destruct Hin | simpl in Hl; lia].
  - destruct repositories as [|r0 rest]; [destruct Hin|].
    rewrite run_S. cbv zeta.
    set (i := workpool.pick (fst (workpool.next sched))
              mod (Nat.min k (length (r0 :: rest)))).
    set (now := (start + Z.of_nat (workpool.started (fst (workpool.next sched))))%Z).
    assert (Hi : i < length (r0 :: rest)) by (apply pick_in_range; simpl; lia).
    destruct (remove_picked (r0 :: rest) i r0 Hi) as (A & B & E & ->).
    set (r := nth i (r0 :: rest) r0) in *.
    destruct (parseRepositoryOrgName r) as [[organization name]|] eqn:Er.
    + destruct (task_parsed w options r organization name (set_clock now st) Er)
        as (st1 & -> & _).
      assert (Hin' : In bad (A ++ B)).
      { rewrite E in Hin. apply in_app_or in Hin as [H|[H|H]].
        - apply in_or_app. left. exact H.
        - subst bad. congruence.
        - apply in_or_app. right. exact H. }
      assert (Hl' : length (A ++ B) <= n).
      { rewrite E in Hl. rewrite length_app in *. simpl in Hl. lia. }
      destruct (IH (A ++ B) (snd (workpool.next sched)) st1 Hl' (ex_intro _ bad (conj Hin' Hbad)))
        as (r' & st' & Hr' & Hp' & Hrun).
      exists r', st'. split; [|split; [exact Hp' | exact Hrun]].
      rewrite E. apply in_app_or in Hr' as [H|H]; apply in_or_app; [left|right; right]; exact H.
    + rewrite task_unparsed by exact Er.
      exists r, (set_clock now st).
      split; [apply nth_In; exact Hi | split; [exact Er | reflexivity]].
Qed.

(** The one call of a task whose reference parses. *)
Lemma task_calls_parsed (w : World) (options : ProcessOptions) (now : time.Time)
      (repository organization name : gostring) :
  parseRepositoryOrgName repository = Some (organization, name) ->
  task_calls w options now repository = [request_at options now organization name].
Proof.
  intros Hp. unfold task_calls.
  destruct (task_parsed w options repository organization name (initial now) Hp)
    as (st' & -> & _ & _ & _ & Hq).
  exact Hq.
Qed.

Lemma calls_at_app (w : World) (options : ProcessOptions)
      (a b : list (time.Time * gostring)) :
  calls_at w options (a ++ b) = calls_at w options a ++ calls_at w options b.
Proof. apply flat_map_app. Qed.

Lemma calls_at_cons (w : World) (options : ProcessOptions)
      (p : time.Time * gostring) (l : list (time.Time * gostring)) :
  calls_at w options (p :: l)
  = task_calls w options (fst p) (snd p) ++ calls_at w options l.
Proof. reflexivity. Qed.

(** The same run, with its calls: each repository is called once, at the
    time its task runs at. *)
Lemma run_full (w : World) (options : ProcessOptions) (k : nat) (start : time.Time) :
  1 <= k ->
  forall n repositories sched st,
    length repositories <= n ->
    List.Forall (fun r => parseRepositoryOrgName r <> None) repositories ->
    exists runs st',
      workpool.run n k (map (task w options) repositories) sched start st = (None, st')
      /\ map snd runs = repositories
      /\ List.Forall (fun p => (start <= fst p)%Z) runs
      /\ Permutation (changes st') (changes st ++ changes_at w options runs)
      /\ Permutation (log st') (log st ++ logs_at w options runs)
      /\ Permutation (requests st') (requests st ++ calls_at w options runs).
Proof.
  intros Hk. induction n as [|n IH]; intros repositories sched st Hl Hp.
  - destruct repositories; [|simpl in Hl; lia].
    exists [], st. simpl. rewrite !app_nil_r.
    split; [reflexivity|]. split; [reflexivity|]. split; [apply List.Forall_nil|].
    split; [reflexivity|]. split; reflexivity.
  - destruct repositories as [|r0 rest].
    + exists [], st. simpl. rewrite !app_nil_r.
      split; [reflexivity|]. split; [reflexivity|]. split; [apply List.Forall_nil|].
      split; [reflexivity|]. split; reflexivity.
    + rewrite run_S. cbv zeta.
      set (i := workpool.pick (fst (workpool.next sched))
                mod (Nat.min k (length (r0 :: rest)))).
      set (now := (start + Z.of_nat (workpool.started (fst (workpool.next sched))))%Z).
      assert (Hi : i < length (r0 :: rest)) by (apply pick_in_range; simpl; lia).
      destruct (remove_picked (r0 :: rest) i r0 Hi) as (A & B & E & ->).
      set (r := nth i (r0 :: rest) r0) in *.
      assert (Hr : parseRepositoryOrgName r <> None).
      { rewrite List.Forall_forall in Hp. apply Hp. apply nth_In. exact Hi. }
      destruct (parseRepositoryOrgName r) as [[organization name]|] eqn:Er; [|congruence].
      destruct (task_parsed w options r organization name (set_clock now st) Er)
        as (st1 & -> & Hc1 & Hch1 & Hlg1 & Hrq1).
      assert (Hp' : List.Forall (fun r => parseRepositoryOrgName r <> None) (A ++ B)).
      { rewrite E in Hp. apply List.Forall_app in Hp as [HA HB].
        apply List.Forall_cons_iff in HB as [_ HB]. apply List.Forall_app. auto. }
      assert (Hl' : length (A ++ B) <= n).
      { rewrite E in Hl. rewrite length_app in *. simpl in Hl. lia. }
      destruct (IH (A ++ B) (snd (workpool.next sched)) st1 Hl' Hp')
        as (runs & st' & Hrun & Hmap & Ht & Hch & Hlg & Hrq).
      apply map_eq_app in Hmap as (rA & rB & -> & HmA & HmB).
      exists (rA ++ (now, r) :: rB), st'.
      split; [exact Hrun|]. split; [|split; [|split; [|split]]].
      * rewrite List.map_app. simpl. rewrite E. f_equal; [exact HmA|]. f_equal. exact HmB.
      * apply List.Forall_app in Ht as [HtA HtB].
        apply List.Forall_app. split; [exact HtA|]. constructor; [|exact HtB].
        simpl. unfold now. lia.
      * rewrite Hch, Hch1. simpl changes. simpl clock.
        rewrite !changes_at_app, changes_at_cons. cbn [fst snd].
        rewrite <- !app_assoc. apply Permutation_app_head.
        rewrite !app_assoc. apply Permutation_app_tail. apply Permutation_app_comm.
      * rewrite Hlg, Hlg1. simpl log. simpl clock.
        rewrite !logs_at_app, logs_at_cons. cbn [fst snd].
        rewrite <- !app_assoc. apply Permutation_app_head.
        rewrite !app_assoc. apply Permutation_app_tail. apply Permutation_app_comm.
      * rewrite Hrq, Hrq1. simpl requests. simpl clock.
        rewrite !calls_at_app, calls_at_cons. cbn [fst snd].
        rewrite (task_calls_parsed w options now r organization name Er).
        rewrite <- !app_assoc. apply Permutation_app_head.
        rewrite !app_assoc. apply Permutation_app_tail. apply Permutation_app_comm.
Qed.

(** Negating a duration that is not the least one is exact. *)
Lemma neg_exact (d : time.Duration) :
  (- 2 ^ 63 < d < 2 ^ 63)%Z -> time.neg d = (- d)%Z.
Proof.
  intros H. unfold time.neg, time.wrap64. rewrite Z.mod_small by lia. lia.
Qed.

(** Every call that a task makes asks for the branch of the options and
    for the commits since its own wall-clock time plus the opposite of
    [Since], the one that Go computes. *)
Lemma task_cutoff (w : World) (options : ProcessOptions) (t0 : time.Time)
      (repository : gostring) (st : State) :
  (t0 <= clock st)%Z ->
  List.Forall (cutoff_ok options t0) (requests st) ->
  List.Forall (cutoff_ok options t0) (requests (snd (task w options repository st))).
Proof.
  intros Ht Hr.
  destruct (parseRepositoryOrgName repository) as [[organization name]|] eqn:E.
  - destruct (task_parsed w options repository organization name st E)
      as (st' & -> & _ & _ & _ & Hq). simpl snd. rewrite Hq.
    apply List.Forall_app. split; [exact Hr|]. constructor; [|constructor].
    unfold cutoff_ok, request_at. simpl. repeat split. exact Ht.
  - rewrite task_unparsed by exact E. exact Hr.
Qed.

Lemma run_cutoff (w : World) (options : ProcessOptions) (t0 : time.Time) (k : nat) :
  forall n repositories sched st,
    List.Forall (cutoff_ok options t0) (requests st) ->
    List.Forall (cutoff_ok options t0)
      (requests (snd (workpool.run n k (map (task w options) repositories) sched t0 st))).
Proof.
  induction n as [|n IH]; intros repositories sched st Hr; [exact Hr|].
  destruct repositories as [|r0 rest]; [exact Hr|].
  rewrite run_S. cbv zeta.
  set (i := workpool.pick (fst (workpool.next sched))
            mod (Nat.min k (length (r0 :: rest)))).
  set (now := (t0 + Z.of_nat (workpool.started (fst (workpool.next sched))))%Z).
  set (r := nth i (r0 :: rest) r0).
  assert (Ht' : (t0 <= clock (set_clock now st))%Z) by (simpl; unfold now; lia).
  pose proof (task_cutoff w options t0 r (set_clock now st) Ht' Hr) as Hq.
  destruct (task w options r (set_clock now st)) as [[err|] st1]; [exact Hq|].
  simpl snd in *. apply IH. exact Hq.
Qed.

Lemma processRepositories_cutoff `{SliceSorter} (w : World) (options : ProcessOptions)
      (repositories : list gostring) (sched : workpool.Schedule) (t0 : time.Time) :
  List.Forall (cutoff_ok options t0)
    (requests (snd (processRepositories w options repositories sched (initial t0)))).
Proof.
  rewrite processRepositories_eq.
  pose proof (run_cutoff w options t0 (Z.to_nat (Z.max 1 (Concurrency options)))
                (length repositories) repositories sched (set_changes [] (initial t0))
                (List.Forall_nil _)) as Hq.
  simpl clock.
  destruct (workpool.run _ _ _ _ _) as [[err|] st']; exact Hq.
Qed.

(** The least duration is its own opposite. *)
Lemma neg_least : time.neg (- 2 ^ 63)%Z = (- 2 ^ 63)%Z.
Proof. reflexivity. Qed.

(** ** [getRepositoryChanges] and [processRepositories] *)

(** Every reference parses, or one of them does not. *)
Lemma all_parse_dec (repositories : list gostring) :
  List.Forall (fun r => parseRepositoryOrgName r <> None) repositories
  \/ exists r, In r repositories /\ parseRepositoryOrgName r = None.
Proof.
  induction repositories as [|r rs [IH | (b & Hin & Hb)]].
  - left. constructor.
  - destruct (parseRepositoryOrgName r) eqn:E.
    + left. constructor; [congruence | exact IH].
    + right. exists r. split; [left; reflexivity | exact E].
  - right. exists b. split; [right; exact Hin | exact Hb].
Qed.

(** A run only fails on a reference that does not parse. *)
Lemma processRepositories_error `{SliceSorter}
      (w : World) (options : ProcessOptions) (repositories : list gostring)
      (sched : workpool.Schedule) (st : State) (e : error) :
  fst (processRepositories w options repositories sched st) = inr e ->
  exists r, In r repositories /\ parseRepositoryOrgName r = None /\ e = errUnparsable r.
Proof.
  rewrite processRepositories_eq. intros He.
  destruct (all_parse_dec repositories) as [Hall | Hbad].
  - destruct (run_ok w options _ (clock st) (workers_positive (Concurrency options))
                (length repositories) repositories sched (set_changes [] st)
                (Nat.le_refl _) Hall) as (runs & st' & Hrun & _).
    rewrite Hrun in He. discriminate.
  - destruct (run_error w options _ (clock st) (workers_positive (Concurrency options))
                (length repositories) repositories sched (set_changes [] st)
                (Nat.le_refl _) Hbad) as (r & st' & Hin & Hp & Hrun).
    rewrite Hrun in He. injection He as <-. eauto.
Qed.

(** The task of a repository whose call at [now] fails appends nothing and
    logs the failure. *)
Lemma task_failed_at (w : World) (options : ProcessOptions) (now : time.Time)
      (repository organization name : gostring) (err : error) :
  parseRepositoryOrgName repository = Some (organization, name) ->
  ListCommits w organization name (req_opts (request_at options now organization name))
  = inr err ->
  task_changes w options now repository = []
  /\ task_log w options now repository
     = [{| log_repository := repository; log_err := err |}].
Proof.
  intros Hp He. unfold task_changes, task_log, task, getRepositoryChanges. rewrite Hp.
  unfold request_at in He. simpl in He. simpl clock. rewrite He. simpl.
  split; reflexivity.
Qed.

(** A run in which every reference parses, in full: what it returns, what
    it logs and what it calls. *)
Lemma processRepositories_full `{SliceSorter} (w : World) (options : ProcessOptions)
      (repositories : list gostring) (sched : workpool.Schedule) (st : State) :
  List.Forall (fun r => parseRepositoryOrgName r <> None) repositories ->
  exists out st' runs,
    processRepositories w options repositories sched st = (inl out, st')
    /\ map snd runs = repositories
    /\ List.Forall (fun p => (clock st <= fst p)%Z) runs
    /\ Permutation out (changes_at w options runs)
    /\ Permutation (log st') (log st ++ logs_at w options runs)
    /\ Permutation (requests st') (requests st ++ calls_at w options runs).
Proof.
  intros Hp. rewrite processRepositories_eq.
  destruct (run_full w options _ (clock st) (workers_positive (Concurrency options))
              (length repositories) repositories sched (set_changes [] st)
              (Nat.le_refl _) Hp) as (runs & st' & Hrun & Hmap & Ht & Hch & Hlg & Hrq).
  rewrite Hrun. eexists. eexists. exists runs.
  split; [reflexivity|]. split; [exact Hmap|]. split; [exact Ht|]. split; [|split].
  - rewrite <- (sort_Slice_Permutation Change (changes st') less_change). exact Hch.
  - exact Hlg.
  - exact Hrq.
Qed.

(** C1, as the code has it: when some reference does not parse, the task
    of such a reference returns the error of [getRepositoryChanges], and
    [processRepositories] returns that error and no change list, whatever
    the order in which the tasks finish. *)
Theorem processRepositories_unparsable `{SliceSorter}
        (w : World) (options : ProcessOptions) (repositories : list gostring)
        (sched : workpool.Schedule) (st : State) :
  (exists r, In r repositories /\ parseRepositoryOrgName r = None) ->
  exists r,
    In r repositories /\ parseRepositoryOrgName r = None
    /\ (forall st0, getRepositoryChanges w r options st0 = (inr (errUnparsable r), st0))
    /\ fst (processRepositories w options repositories sched st) = inr (errUnparsable r).
Proof.
  intros Hbad. rewrite processRepositories_eq.
  destruct (run_error w options _ (clock st) (workers_positive (Concurrency options))
              (length repositories) repositories sched (set_changes [] st)
              (Nat.le_refl _) Hbad) as (r & st' & Hin & Hp & Hrun).
  exists r. rewrite Hrun. repeat split; try assumption.
  intros st0. unfold getRepositoryChanges. rewrite Hp. reflexivity.
Qed.

Lemma processRepositories_unparsable_witness :
  exists r,
    In r [repo_api; repo_ssh] /\ parseRepositoryOrgName r = None
    /\ (forall st0, getRepositoryChanges example_world r example_options st0
                    = (inr (errUnparsable r), st0))
    /\ fst (processRepositories example_world example_options [repo_api; repo_ssh]
                                example_schedule (initial 0%Z))
       = inr (errUnparsable r).
Proof.
  apply processRepositories_unparsable.
  exists repo_ssh. split; [right; left; reflexivity | vm_compute; reflexivity].
Defined.

(** C1, as the claim states it, fails: with one reference that does not
    parse, the run returns an error and none of the changes of the other
    repository. *)
Lemma processRepositories_unparsable_fails :
  parseRepositoryOrgName repo_ssh = None
  /\ fst (processRepositories example_world example_options [repo_api; repo_ssh]
                              example_schedule (initial 0%Z))
     = inr (errUnparsable repo_ssh)
  /\ ~ exists out,
         fst (processRepositories example_world example_options [repo_api; repo_ssh]
                                  example_schedule (initial 0%Z)) = inl out.
Proof.
  split; [vm_compute; reflexivity|]. split; [vm_compute; reflexivity|].
  intros [out H]. vm_compute in H. discriminate.
Qed.

(** C3: when the run succeeds, which it does as soon as every reference
    parses, the result is a permutation of the lists of the repositories
    put end to end, and it is sorted by [originalTime], oldest first. *)
Theorem processRepositories_sorted_permutation `{SliceSorter}
        (w : World) (options : ProcessOptions) (repositories : list gostring)
        (sched : workpool.Schedule) (st : State) :
  List.Forall (fun r => parseRepositoryOrgName r <> None) repositories ->
  exists out runs,
    fst (processRepositories w options repositories sched st) = inl out
    /\ map snd runs = repositories
    /\ Permutation out (changes_at w options runs)
    /\ oldest_first out.
Proof.
  intros Hp. rewrite processRepositories_eq.
  destruct (run_ok w options _ (clock st) (workers_positive (Concurrency options))
              (length repositories) repositories sched (set_changes [] st)
              (Nat.le_refl _) Hp) as (runs & st' & Hrun & Hmap & _ & Hch & _).
  rewrite Hrun. simpl fst. eexists. exists runs.
  split; [reflexivity|]. split; [exact Hmap|]. split.
  - rewrite <- (sort_Slice_Permutation Change (changes st') less_change). exact Hch.
  - apply sort_Slice_oldest_first.
Qed.

Lemma processRepositories_sorted_permutation_witness :
  exists out runs,
    fst (processRepositories example_world example_options [repo_api; repo_oc]
                             example_schedule (initial 0%Z)) = inl out
    /\ map snd runs = [repo_api; repo_oc]
    /\ Permutation out (changes_at example_world example_options runs)
    /\ oldest_first out.
Proof.
  apply processRepositories_sorted_permutation.
  repeat constructor; vm_compute; discriminate.
Defined.

(** The two commits that are not merges come out oldest first. *)
Example processRepositories_example :
  option_map (map originalTime)
    (match fst (processRepositories example_world example_options [repo_api; repo_oc]
                                    example_schedule (initial 0%Z)) with
     | inl out => Some out
     | inr _ => None
     end)
  = Some [200%Z; 300%Z].
Proof. vm_compute. reflexivity. Qed.

(** C2, as the code has it: when the reference parses and the remote call
    fails, [getRepositoryChanges] logs the repository with the error and
    returns no commit and no error.  A run never fails on such a
    repository: when it fails, it is on another reference, one that does
    not parse.  When the other references parse, the run completes; the
    repository is called once, at some time [now] not before the start,
    and when that call fails the result is a permutation of the changes of
    the other repositories, the failure being logged once. *)
Theorem transport_error_absorbed `{SliceSorter} (w : World) (options : ProcessOptions)
        (repository organization name : gostring) :
  parseRepositoryOrgName repository = Some (organization, name) ->
  (forall st err,
      ListCommits w organization name
                  (req_opts (request_at options (clock st) organization name)) = inr err ->
      getRepositoryChanges w repository options st
      = (inl [], log_Printf repository err
                   (record_request (request_at options (clock st) organization name) st)))
  /\ forall before after sched st,
       (forall e,
           fst (processRepositories w options (before ++ repository :: after) sched st)
           = inr e ->
           exists r, In r (before ++ after) /\ parseRepositoryOrgName r = None
                     /\ e = errUnparsable r)
       /\
       (List.Forall (fun r => parseRepositoryOrgName r <> None) (before ++ after) ->
        exists out st' runs now,
          processRepositories w options (before ++ repository :: after) sched st
          = (inl out, st')
          /\ map snd runs = before ++ after
          /\ (clock st <= now)%Z
          /\ Permutation (requests st')
               (requests st
                ++ request_at options now organization name :: calls_at w options runs)
          /\ forall err,
               ListCommits w organization name
                           (req_opts (request_at options now organization name)) = inr err ->
               Permutation out (changes_at w options runs)
               /\ Permutation (log st')
                    (log st ++ {| log_repository := repository; log_err := err |}
                               :: logs_at w options runs)).
Proof.
  intros Hp. split.
  - intros st err He. unfold getRepositoryChanges. rewrite Hp.
    unfold request_at in He. simpl in He. rewrite He. reflexivity.
  - intros before after sched st. split.
    { intros e He. apply processRepositories_error in He as (r & Hin & Hr & ->).
      exists r. split; [|split; [exact Hr | reflexivity]].
      apply in_app_or in Hin as [Hin|[Hin|Hin]].
      - apply in_or_app. left. exact Hin.
      - subst r. congruence.
      - apply in_or_app. right. exact Hin. }
    intros Hall.
    assert (Hall' : List.Forall (fun r => parseRepositoryOrgName r <> None)
                                (before ++ repository :: after)).
    { apply List.Forall_app in Hall as [Hb Ha]. apply List.Forall_app.
      split; [exact Hb|]. constructor; [congruence | exact Ha]. }
    destruct (processRepositories_full w options _ sched st Hall')
      as (out & st' & runs & Hrun & Hmap & Ht & Hch & Hlg & Hrq).
    apply map_eq_app in Hmap as (rb & rrest & -> & Hmb & Hmrest).
    destruct rrest as [|[now r] ra]; [discriminate|]. simpl in Hmrest.
    injection Hmrest as -> Hma.
    exists out, st', (rb ++ ra), now.
    split; [exact Hrun|].
    split; [rewrite List.map_app; f_equal; [exact Hmb | exact Hma]|].
    split.
    { apply List.Forall_app in Ht as [_ Ht]. apply List.Forall_inv in Ht. exact Ht. }
    split.
    { rewrite Hrq. apply Permutation_app_head.
      rewrite !calls_at_app, calls_at_cons. cbn [fst snd].
      rewrite (task_calls_parsed w options now repository organization name Hp).
      apply Permutation_sym. apply Permutation_middle. }
    intros err He.
    destruct (task_failed_at w options now repository organization name err Hp He)
      as (Hnil & Hlog).
    split.
    + rewrite Hch. rewrite !changes_at_app, changes_at_cons. cbn [fst snd].
      rewrite Hnil. reflexivity.
    + rewrite Hlg. apply Permutation_app_head.
      rewrite !logs_at_app, logs_at_cons. cbn [fst snd]. rewrite Hlog.
      apply Permutation_sym. apply Permutation_middle.
Qed.

(** The example of the specification: three repositories, the second
    one unreachable. *)
Lemma transport_error_absorbed_witness :
  exists out st' runs now,
    processRepositories example_world example_options [repo_api; repo_gone; repo_oc]
                        example_schedule (initial 0%Z) = (inl out, st')
    /\ map snd runs = [repo_api; repo_oc]
    /\ (0 <= now)%Z
    /\ Permutation (requests st')
         (request_at example_options now (str "openshift") (str "gone")
          :: calls_at example_world example_options runs)
    /\ Permutation out (changes_at example_world example_options runs)
    /\ Permutation (log st')
         ({| log_repository := repo_gone; log_err := errExternal (str "404 Not Found") |}
          :: logs_at example_world example_options runs).
Proof.
  destruct (proj2 (proj2 (transport_error_absorbed
                            example_world example_options repo_gone
                            (str "openshift") (str "gone") ltac:(vm_compute; reflexivity))
                         [repo_api] [repo_oc] example_schedule (initial 0%Z))
                  ltac:(repeat constructor; vm_compute; discriminate))
    as (out & st' & runs & now & Hrun & Hmap & Hnow & Hrq & Hfail).
  destruct (Hfail (errExternal (str "404 Not Found")) ltac:(reflexivity)) as [Hout Hlog].
  exists out, st', runs, now.
  split; [exact Hrun|]. split; [exact Hmap|]. split; [exact Hnow|].
  split; [exact Hrq|]. split; [exact Hout | exact Hlog].
Defined.

(** C2, as the claim states it, fails: the reference of [repo_gone] parses
    and the remote call for it fails, yet a run over it and over a
    reference that does not parse does not complete, and returns none of
    the changes of the remaining repositories. *)
Lemma transport_error_run_fails :
  parseRepositoryOrgName repo_gone = Some (str "openshift", str "gone")
  /\ (forall opts, ListCommits example_world (str "openshift") (str "gone") opts
                   = inr (errExternal (str "404 Not Found")))
  /\ fst (processRepositories example_world example_options
                              [repo_api; repo_gone; repo_ssh]
                              example_schedule (initial 0%Z))
     = inr (errUnparsable repo_ssh)
  /\ ~ exists out,
         fst (processRepositories example_world example_options
                                  [repo_api; repo_gone; repo_ssh]
                                  example_schedule (initial 0%Z)) = inl out.
Proof.
  split; [vm_compute; reflexivity|]. split; [intros opts; reflexivity|].
  split; [vm_compute; reflexivity|].
  intros [out H]. vm_compute in H. discriminate.
Qed.

(** C8, as the code has it: every call of the remote API made during a
    run asks for the branch of the options and for the commits since the
    wall-clock time of that very call plus the opposite of [Since], taken
    on 64 bits as Go takes it; no call is made before the start of the
    run.  For the least duration, which is its own opposite, that cutoff
    is the time of the call minus 2^63 nanoseconds; for every other
    duration it is the time of the call minus [Since]. *)
Theorem cutoff_per_fetch `{SliceSorter} (w : World) (options : ProcessOptions)
        (repositories : list gostring) (sched : workpool.Schedule) (t0 : time.Time) :
  List.Forall (cutoff_ok options t0)
    (requests (snd (processRepositories w options repositories sched (initial t0))))
  /\ (Since options = (- 2 ^ 63)%Z ->
      List.Forall (fun r => github.Since (req_opts r) = (req_at r - 2 ^ 63)%Z)
        (requests (snd (processRepositories w options repositories sched (initial t0)))))
  /\ ((- 2 ^ 63 < Since options < 2 ^ 63)%Z ->
      List.Forall (request_ok options t0)
        (requests (snd (processRepositories w options repositories sched (initial t0))))).
Proof.
  pose proof (processRepositories_cutoff w options repositories sched t0) as Hq.
  split; [exact Hq|]. split.
  - intros Hs. revert Hq. apply List.Forall_impl. intros r (_ & Hr & _).
    rewrite Hr, Hs, neg_least. unfold time.Add. lia.
  - intros Hs. revert Hq. apply List.Forall_impl. intros r (Hb & Hr & Ht).
    unfold request_ok. rewrite Hr, (neg_exact _ Hs). unfold time.Add.
    split; [exact Hb | split; [lia | exact Ht]].
Qed.

(** Two runs over the same repositories: one with a duration of a day,
    one with the least duration. *)
Lemma cutoff_per_fetch_witness :
  List.Forall (request_ok example_options 0%Z)
    (requests (snd (processRepositories example_world example_options
                                        [repo_api; repo_oc] example_schedule (initial 0%Z))))
  /\ List.Forall (fun r => github.Since (req_opts r) = (req_at r - 2 ^ 63)%Z)
       (requests (snd (processRepositories example_world least_options
                                           [repo_api; repo_oc] example_schedule
                                           (initial 0%Z)))).
Proof.
  split.
  - apply (proj2 (proj2 (cutoff_per_fetch example_world example_options
                           [repo_api; repo_oc] example_schedule 0%Z))).
    vm_compute. split; reflexivity.
  - apply (proj1 (proj2 (cutoff_per_fetch example_world least_options
                           [repo_api; repo_oc] example_schedule 0%Z))).
    reflexivity.
Defined.

(** With the least duration the cutoff of a call made 5 nanoseconds after
    the start is 5 - 2^63, not 5 + 2^63. *)
Example cutoff_least_duration :
  map (fun r => github.Since (req_opts r))
      (requests (snd (processRepositories example_world least_options
                                          [repo_api; repo_oc] example_schedule (initial 0%Z))))
  = [(5 - 2 ^ 63)%Z; (12 - 2 ^ 63)%Z].
Proof. vm_compute. reflexivity. Qed.

(** C8, as the claim states it, fails: the two fetches of a run started at
    time 0 compute their cutoffs 5 and 12 nanoseconds later, each from its
    own reading of the clock. *)
Lemma cutoff_not_single :
  map (fun r => github.Since (req_opts r))
      (requests (snd (processRepositories example_world example_options
                                          [repo_api; repo_oc] example_schedule (initial 0%Z))))
  = [(5 - Since example_options)%Z; (12 - Since example_options)%Z]
  /\ ~ List.Forall (fun r => github.Since (req_opts r) = (0 - Since example_options)%Z)
       (requests (snd (processRepositories example_world example_options
                                           [repo_api; repo_oc] example_schedule (initial 0%Z)))).
Proof.
  split; [vm_compute; reflexivity|].
  intros H. apply List.Forall_inv in H. vm_compute in H. discriminate.
Qed.

(** * More properties of the code *)

(** ** [sanitizeMessage] as a whole *)

Lemma HasPrefix_app_cons_inv (p w v : gostring) (c : ascii) :
  strings.HasPrefix (w ++ c :: v) p = true ->
  strings.HasPrefix w p = true \/ In c p.
Proof.
  revert w. induction p as [|d p IH]; intros w H.
  - left. destruct w; reflexivity.
  - destruct w as [|y w].
    + right. simpl in H. apply andb_true_iff in H as [H _].
      apply ascii_eqb_true in H. subst d. left. reflexivity.
    + simpl in H. apply andb_true_iff in H as [Hy H].
      destruct (IH w H) as [Hw | Hc].
      * left. simpl. rewrite Hy, Hw. reflexivity.
      * right. right. exact Hc.
Qed.

(** An instance of [p] does not reach across a byte that [p] does not have. *)
Lemma Contains_sep (u b p : gostring) (c : ascii) :
  p <> [] -> ~ In c p ->
  strings.Contains u p = false -> strings.Contains b p = false ->
  strings.Contains (u ++ c :: b) p = false.
Proof.
  intros Hp Hc. induction u as [|x u IH]; intros Hu Hb.
  - simpl app. rewrite Contains_cons, Hb, orb_false_r.
    destruct (strings.HasPrefix (c :: b) p) eqn:E; [|reflexivity].
    destruct (HasPrefix_app_cons_inv p [] b c E) as [H|H].
    + destruct p; [congruence | discriminate].
    + contradiction.
  - rewrite Contains_cons in Hu. apply orb_false_iff in Hu as [H1 H2].
    rewrite <- app_comm_cons, Contains_cons. apply orb_false_iff.
    split; [|exact (IH H2 Hb)].
    destruct (strings.HasPrefix (x :: u ++ c :: b) p) eqn:E; [|reflexivity].
    rewrite app_comm_cons in E. apply HasPrefix_app_cons_inv in E as [E|E].
    + congruence.
    + contradiction.
Qed.

Lemma Contains_Join (r : list gostring) (p : gostring) (c : ascii) :
  p <> [] -> ~ In c p ->
  List.Forall (fun x => strings.Contains x p = false) r ->
  strings.Contains (strings.Join r [c]) p = false.
Proof.
  intros Hp Hc. induction 1 as [|a r Ha HF IH].
  - destruct p; [congruence | reflexivity].
  - destruct r as [|b r]; [exact Ha|].
    rewrite Join_cons by discriminate.
    change ([c] ++ strings.Join (b :: r) [c]) with (c :: strings.Join (b :: r) [c]).
    apply Contains_sep; assumption.
Qed.

Lemma kept_lines_no_newline (msg : gostring) :
  List.Forall (fun l => ~ In "010"%char l)
              (flat_map (sanitizeMessage_step []) (splitc "010"%char msg)).
Proof.
  apply List.Forall_forall. intros y Hy. exact (proj1 (kept_line msg y Hy)).
Qed.

(** X1: splitting the sanitized message at its newlines gives back the
    kept lines, each one cleaned, in the order of the message: joining
    neither merges nor cuts a line. *)
Theorem sanitizeMessage_Lines (msg : gostring) :
  Lines (sanitizeMessage msg)
  = flat_map (sanitizeMessage_step []) (strings.Split msg newline).
Proof.
  rewrite sanitizeMessage_eq. unfold newline at 2. rewrite Split_byte.
  pose proof (kept_lines_no_newline msg) as HF.
  destruct (flat_map (sanitizeMessage_step []) (splitc "010"%char msg)) as [|a r] eqn:E;
    [reflexivity|].
  assert (Ha : a <> []).
  { assert (H : strings.TrimSpace a <> []).
    { apply (kept_line msg a). rewrite E. left. reflexivity. }
    intros ->. apply H. reflexivity. }
  assert (Hs : strings.Split (strings.Join (a :: r) newline) newline = a :: r).
  { unfold newline. rewrite Split_byte. apply splitc_Join; [discriminate | exact HF]. }
  unfold Lines. destruct (strings.Join (a :: r) newline) as [|c t] eqn:EJ; [|exact Hs].
  exfalso. destruct r as [|b r]; simpl in EJ.
  - exact (Ha EJ).
  - apply app_eq_nil in EJ as [EJ _]. exact (Ha EJ).
Qed.

Lemma sanitizeMessage_step_nil (l : gostring) :
  sanitizeMessage_step [] l = [] <-> dropped_line l.
Proof.
  unfold sanitizeMessage_step, dropped_line.
  destruct (strings.Contains l (str "Signed-off-by")); simpl orb; cbv iota.
  - split; auto.
  - destruct (strings.TrimSpace l) as [|c t] eqn:E; simpl; cbv iota.
    + split; auto.
    + split; [discriminate|]. intros [H|H]; discriminate.
Qed.

(** X2: the sanitized message is empty exactly when every line of the
    message is a signature line or a blank line. *)
Theorem sanitizeMessage_nil_iff (msg : gostring) :
  sanitizeMessage msg = [] <-> List.Forall dropped_line (strings.Split msg newline).
Proof.
  rewrite sanitizeMessage_empty. unfold newline. rewrite Split_byte.
  induction (splitc "010"%char msg) as [|l ls IH]; simpl.
  - split; [constructor | reflexivity].
  - split.
    + intros H. apply app_eq_nil in H as [H1 H2].
      constructor; [apply sanitizeMessage_step_nil; exact H1 | apply IH; exact H2].
    + intros H. apply List.Forall_cons_iff in H as [H1 H2].
      apply sanitizeMessage_step_nil in H1. rewrite H1. simpl. apply IH. exact H2.
Qed.

(** X3: "Signed-off-by" occurs nowhere in the sanitized message, not even
    across two of its lines. *)
Theorem sanitizeMessage_no_signature (msg : gostring) :
  strings.Contains (sanitizeMessage msg) (str "Signed-off-by") = false.
Proof.
  rewrite sanitizeMessage_eq. apply Contains_Join.
  - discriminate.
  - simpl. intros H. repeat (destruct H as [H|H]; [discriminate|]). exact H.
  - apply List.Forall_forall. intros x Hx. apply (kept_line msg x Hx).
Qed.

(** A kept line of at most 80 bytes comes out as a line that the sanitizer
    leaves alone. *)
Lemma kept_short_line (l x : gostring) :
  length l <= 80 -> In x (sanitizeMessage_step [] l) -> sanitized_line x.
Proof.
  intros Hl Hx. apply sanitizeMessage_step_In in Hx as (HC & HT & ->).
  rewrite (proj2 (Nat.ltb_ge _ _)) by exact Hl.
  destruct (TrimSpace_infix l) as (a & b & E).
  repeat split.
  - apply (Contains_false_infix a _ b). rewrite <- E. exact HC.
  - rewrite TrimSpace_idempotent. exact HT.
  - pose proof (TrimSpace_length l). lia.
  - apply TrimSpace_idempotent.
Qed.

(** X4: on a message whose lines all have at most 80 bytes, sanitizing
    twice is sanitizing once. *)
Theorem sanitizeMessage_idempotent_short (msg : gostring) :
  List.Forall (fun l => length l <= 80) (strings.Split msg newline) ->
  sanitizeMessage (sanitizeMessage msg) = sanitizeMessage msg.
Proof.
  unfold newline. rewrite Split_byte. intros Hl.
  rewrite (sanitizeMessage_eq msg).
  pose proof (kept_lines_no_newline msg) as HF.
  assert (HS : List.Forall sanitized_line
                 (flat_map (sanitizeMessage_step []) (splitc "010"%char msg))).
  { apply List.Forall_forall. intros x Hx. apply in_flat_map in Hx as (l & Hin & Hx).
    rewrite List.Forall_forall in Hl. exact (kept_short_line l x (Hl l Hin) Hx). }
  destruct (flat_map (sanitizeMessage_step []) (splitc "010"%char msg)) as [|a r];
    [reflexivity|].
  rewrite sanitizeMessage_eq. unfold newline at 2.
  rewrite splitc_Join by (discriminate || exact HF).
  rewrite sanitized_lines_kept by exact HS. reflexivity.
Qed.

Lemma sanitizeMessage_idempotent_short_witness :
  sanitizeMessage (sanitizeMessage (str "  Fix the parser  " ++ newline
                                    ++ str "Signed-off-by: A <a@b.c>"))
  = sanitizeMessage (str "  Fix the parser  " ++ newline ++ str "Signed-off-by: A <a@b.c>").
Proof.
  apply sanitizeMessage_idempotent_short.
  repeat constructor; vm_compute; lia.
Defined.

(** ** [parseRepositoryOrgName], once more *)

(** What a parsed reference is made of. *)
Lemma parseRepositoryOrgName_Some (repository organization name : gostring) :
  parseRepositoryOrgName repository = Some (organization, name) ->
  repository = github_prefix ++ organization ++ "/"%char :: name.
Proof.
  unfold parseRepositoryOrgName.
  destruct (strings.HasPrefix repository github_prefix) eqn:E; simpl negb; cbv iota;
    [|discriminate].
  apply HasPrefix_spec in E as [t ->]. rewrite TrimPrefix_app.
  change (str "/") with ["/"%char]. rewrite Split_byte.
  destruct (splitc "/"%char t) as [|p0 [|p1 [|p2 r]]] eqn:Es; try discriminate.
  intros [= -> ->]. apply splitc_two in Es as (-> & _). reflexivity.
Qed.

(** X5: two references that parse to the same organization and name are
    the same reference: distinct references never name the same remote
    repository. *)
Theorem parseRepositoryOrgName_injective (r1 r2 : gostring) (p : gostring * gostring) :
  parseRepositoryOrgName r1 = Some p -> parseRepositoryOrgName r2 = Some p -> r1 = r2.
Proof.
  destruct p as [organization name]. intros H1 H2.
  apply parseRepositoryOrgName_Some in H1, H2. congruence.
Qed.

Lemma parseRepositoryOrgName_injective_witness : repo_api = repo_api.
Proof.
  apply (parseRepositoryOrgName_injective repo_api repo_api (str "openshift", str "api"));
    vm_compute; reflexivity.
Defined.

(** ** [isMergeCommit] and the loop of a task *)

(** X6: a commit counts as a merge exactly when its message contains
    "Merge pull request" as it is written; a missing commit or message has
    the empty message and is no merge. *)
Theorem isMergeCommit_iff (commit : option github.Commit) :
  isMergeCommit commit = true <->
  exists a b, github.GetMessage commit = a ++ str "Merge pull request" ++ b.
Proof. unfold isMergeCommit. apply Contains_true. Qed.

Lemma fold_change_step (w : World) (now : time.Time) (repository : gostring)
      (result : list (option github.RepositoryCommit)) (acc : list Change) :
  fold_left (change_step w now repository) result acc
  = acc ++ map (change_of w now repository)
               (List.filter (fun c => negb (isMergeCommit (github.GetCommit c))) result).
Proof.
  revert acc. induction result as [|c result IH]; intros acc; simpl.
  - rewrite app_nil_r. reflexivity.
  - rewrite IH. unfold change_step.
    destruct (isMergeCommit (github.GetCommit c)); simpl; [reflexivity|].
    rewrite <- app_assoc. reflexivity.
Qed.

(** X7: the task of a repository that the remote answers for appends one
    change per commit that is no merge, in the order of the answer, each
    under the reference of the repository and with the date of the
    committer as its time; the merges are left out. *)
Theorem task_changes_filter (w : World) (options : ProcessOptions) (now : time.Time)
        (repository organization name : gostring)
        (commits : list (option github.RepositoryCommit)) :
  parseRepositoryOrgName repository = Some (organization, name) ->
  ListCommits w organization name (req_opts (request_at options now organization name))
  = inl commits ->
  task_changes w options now repository
  = map (change_of w now repository)
        (List.filter (fun c => negb (isMergeCommit (github.GetCommit c))) commits).
Proof.
  intros Hp Hc. unfold task_changes, task, getRepositoryChanges. rewrite Hp.
  unfold request_at in Hc. simpl in Hc. simpl clock. rewrite Hc. simpl.
  apply fold_change_step.
Qed.

Lemma task_changes_filter_witness :
  task_changes example_world example_options 5%Z repo_api
  = [change_of example_world 5%Z repo_api
       (commit_at "https://github.com/openshift/api/commit/2" "Add a field" 300%Z)].
Proof.
  rewrite (task_changes_filter example_world example_options 5%Z repo_api
             (str "openshift") (str "api")
             [commit_at "https://github.com/openshift/api/commit/2" "Add a field" 300%Z;
              commit_at "https://github.com/openshift/api/commit/1"
                        "Merge pull request #7 from someone/branch" 100%Z]).
  - vm_compute. reflexivity.
  - vm_compute. reflexivity.
  - vm_compute. reflexivity.
Defined.

(** ** [processRepositories] as a whole *)

Lemma sort_Slice_nil `{SliceSorter} {A : Type} (less : A -> A -> bool) :
  sort_Slice [] less = [].
Proof.
  apply Permutation_nil. apply sort_Slice_Permutation.
Qed.

(** X8: over no repository at all the run succeeds with no change, and it
    neither calls the remote nor logs. *)
Theorem processRepositories_nil `{SliceSorter} (w : World) (options : ProcessOptions)
        (sched : workpool.Schedule) (st : State) :
  processRepositories w options [] sched st = (inl [], set_changes [] st).
Proof.
  rewrite processRepositories_eq. simpl. rewrite sort_Slice_nil. reflexivity.
Qed.

(** A successful run, in full: the state it leaves and the list it returns. *)
Lemma processRepositories_ok `{SliceSorter} (w : World) (options : ProcessOptions)
      (repositories : list gostring) (sched : workpool.Schedule) (st : State) :
  List.Forall (fun r => parseRepositoryOrgName r <> None) repositories ->
  exists out st' runs,
    processRepositories w options repositories sched st = (inl out, st')
    /\ map snd runs = repositories
    /\ Permutation out (changes_at w options runs)
    /\ oldest_first out.
Proof.
  intros Hp. rewrite processRepositories_eq.
  destruct (run_ok w options _ (clock st) (workers_positive (Concurrency options))
              (length repositories) repositories sched (set_changes [] st)
              (Nat.le_refl _) Hp) as (runs & st' & Hrun & Hmap & _ & Hch & _).
  rewrite Hrun. eexists. eexists. exists runs.
  split; [reflexivity|]. split; [exact Hmap|]. split.
  - rewrite <- (sort_Slice_Permutation Change (changes st') less_change). exact Hch.
  - apply sort_Slice_oldest_first.
Qed.

(** X9: the run returns a list of changes exactly when every reference
    parses. *)
Theorem processRepositories_succeeds_iff `{SliceSorter}
        (w : World) (options : ProcessOptions) (repositories : list gostring)
        (sched : workpool.Schedule) (st : State) :
  (exists out, fst (processRepositories w options repositories sched st) = inl out)
  <-> List.Forall (fun r => parseRepositoryOrgName r <> None) repositories.
Proof.
  split.
  - intros [out Hout]. destruct (all_parse_dec repositories) as [Hall | Hbad]; [exact Hall|].
    rewrite processRepositories_eq in Hout.
    destruct (run_error w options _ (clock st) (workers_positive (Concurrency options))
                (length repositories) repositories sched (set_changes [] st)
                (Nat.le_refl _) Hbad) as (r & st' & _ & _ & Hrun).
    rewrite Hrun in Hout. discriminate.
  - intros Hall.
    destruct (processRepositories_ok w options repositories sched st Hall)
      as (out & st' & runs & E & _).
    exists out. rewrite E. reflexivity.
Qed.

(** The calls of a run in which every reference parses. *)
Lemma run_targets (w : World) (options : ProcessOptions) (k : nat) (start : time.Time) :
  1 <= k ->
  forall n repositories sched st,
    length repositories <= n ->
    List.Forall (fun r => parseRepositoryOrgName r <> None) repositories ->
    Permutation
      (map (fun r => Some (target r))
           (requests (snd (workpool.run n k (map (task w options) repositories)
                                        sched start st))))
      (map (fun r => Some (target r)) (requests st)
       ++ map parseRepositoryOrgName repositories).
Proof.
  intros Hk. induction n as [|n IH]; intros repositories sched st Hl Hp.
  - destruct repositories; [|simpl in Hl; lia]. simpl. rewrite app_nil_r. reflexivity.
  - destruct repositories as [|r0 rest]; [simpl; rewrite app_nil_r; reflexivity|].
    rewrite run_S. cbv zeta.
    set (i := workpool.pick (fst (workpool.next sched))
              mod (Nat.min k (length (r0 :: rest)))).
    set (now := (start + Z.of_nat (workpool.started (fst (workpool.next sched))))%Z).
    assert (Hi : i < length (r0 :: rest)) by (apply pick_in_range; simpl; lia).
    destruct (remove_picked (r0 :: rest) i r0 Hi) as (A & B & E & ->).
    set (r := nth i (r0 :: rest) r0) in *.
    assert (Hr : parseRepositoryOrgName r <> None).
    { rewrite List.Forall_forall in Hp. apply Hp. apply nth_In. exact Hi. }
    destruct (parseRepositoryOrgName r) as [[organization name]|] eqn:Er; [|congruence].
    destruct (task_parsed w options r organization name (set_clock now st) Er)
      as (st1 & -> & _ & _ & _ & Hq1).
    assert (Hp' : List.Forall (fun r => parseRepositoryOrgName r <> None) (A ++ B)).
    { rewrite E in Hp. apply List.Forall_app in Hp as [HA HB].
      apply List.Forall_cons_iff in HB as [_ HB]. apply List.Forall_app. auto. }
    assert (Hl' : length (A ++ B) <= n).
    { rewrite E in Hl. rewrite length_app in *. simpl in Hl. lia. }
    rewrite (IH (A ++ B) (snd (workpool.next sched)) st1 Hl' Hp'), Hq1, E.
    simpl requests. rewrite !List.map_app. simpl map. fold r. rewrite Er.
    rewrite <- !app_assoc. apply Permutation_app_head. simpl.
    apply Permutation_middle.
Qed.

(** X10: in a run in which every reference parses, the remote is called
    once for each repository of the list, for the organization and the
    name that its reference parses to. *)
Theorem processRepositories_targets `{SliceSorter}
        (w : World) (options : ProcessOptions) (repositories : list gostring)
        (sched : workpool.Schedule) (t0 : time.Time) :
  List.Forall (fun r => parseRepositoryOrgName r <> None) repositories ->
  Permutation
    (map (fun r => Some (target r))
         (requests (snd (processRepositories w options repositories sched (initial t0)))))
    (map parseRepositoryOrgName repositories).
Proof.
  intros Hp. rewrite processRepositories_eq.
  pose proof (run_targets w options _ (clock (initial t0))
                (workers_positive (Concurrency options))
                (length repositories) repositories sched (set_changes [] (initial t0))
                (Nat.le_refl _) Hp) as Hq.
  simpl in Hq.
  destruct (workpool.run _ _ _ _ _ _) as [[err|] st']; exact Hq.
Qed.

Lemma processRepositories_targets_witness :
  Permutation
    (map (fun r => Some (target r))
         (requests (snd (processRepositories example_world example_options
                                             [repo_api; repo_gone; repo_oc]
                                             example_schedule (initial 0%Z)))))
    (map parseRepositoryOrgName [repo_api; repo_gone; repo_oc]).
Proof.
  apply processRepositories_targets.
  repeat constructor; vm_compute; discriminate.
Defined.

(** The lines of a sanitized message are clean. *)
Lemma sanitizeMessage_clean (msg : gostring) :
  List.Forall clean_line (Lines (sanitizeMessage msg)).
Proof.
  apply List.Forall_forall. intros x Hx. rewrite sanitizeMessage_eq in Hx.
  apply Lines_Join in Hx; [|apply kept_lines_no_newline].
  destruct (kept_line msg x Hx) as (_ & H1 & H2 & H3). repeat split; assumption.
Qed.

(** What a task appends comes from the answer of the remote to its call. *)
Lemma task_changes_answer (w : World) (options : ProcessOptions) (now : time.Time)
      (repository : gostring) (c : Change) :
  In c (task_changes w options now repository) ->
  exists organization name commits commit,
    parseRepositoryOrgName repository = Some (organization, name)
    /\ ListCommits w organization name
                   (req_opts (request_at options now organization name)) = inl commits
    /\ In commit commits
    /\ isMergeCommit (github.GetCommit commit) = false
    /\ c = change_of w now repository commit.
Proof.
  unfold task_changes, task, getRepositoryChanges.
  destruct (parseRepositoryOrgName repository) as [[organization name]|]; [|intros []].
  simpl clock. unfold request_at. simpl req_opts.
  destruct (ListCommits w organization name _) as [commits|err] eqn:E; simpl; [|intros []].
  rewrite fold_change_step. simpl. intros H. apply in_map_iff in H as (commit & <- & H).
  apply filter_In in H as [Hin H]. apply negb_true_iff in H.
  exists organization, name, commits, commit. repeat split; assumption.
Qed.

(** X11: a run that returns a list has fetched every repository of the
    list once, at a time not before its start, and has made no other
    call; every change that it returns comes from one of these fetches:
    it bears the reference of the repository, it is made of a commit, no
    merge, of the answer of the remote to the call of that fetch, and its
    message has only clean lines: at most 84 bytes, no "Signed-off-by",
    not blank. *)
Theorem processRepositories_rows `{SliceSorter}
        (w : World) (options : ProcessOptions) (repositories : list gostring)
        (sched : workpool.Schedule) (st : State) (out : list Change) :
  fst (processRepositories w options repositories sched st) = inl out ->
  exists runs,
    map snd runs = repositories
    /\ List.Forall (fun p => (clock st <= fst p)%Z) runs
    /\ Permutation (requests (snd (processRepositories w options repositories sched st)))
         (requests st ++ calls_at w options runs)
    /\ List.Forall
         (fun c => In (repository c) repositories
                   /\ List.Forall clean_line (Lines (Message c))
                   /\ exists now organization name commits commit,
                        In (now, repository c) runs
                        /\ parseRepositoryOrgName (repository c) = Some (organization, name)
                        /\ In (request_at options now organization name)
                              (calls_at w options runs)
                        /\ ListCommits w organization name
                             (req_opts (request_at options now organization name))
                           = inl commits
                        /\ In commit commits
                        /\ isMergeCommit (github.GetCommit commit) = false
                        /\ c = change_of w now (repository c) commit)
         out.
Proof.
  intros Hout.
  assert (Hall : List.Forall (fun r => parseRepositoryOrgName r <> None) repositories).
  { destruct (all_parse_dec repositories) as [Hall | Hbad]; [exact Hall|].
    rewrite processRepositories_eq in Hout.
    destruct (run_error w options _ (clock st) (workers_positive (Concurrency options))
                (length repositories) repositories sched (set_changes [] st)
                (Nat.le_refl _) Hbad) as (r & st' & _ & _ & Hrun).
    rewrite Hrun in Hout. discriminate. }
  destruct (processRepositories_full w options repositories sched st Hall)
    as (out' & st' & runs & E & Hmap & Ht & Hperm & _ & Hrq).
  rewrite E in Hout |- *. injection Hout as ->.
  exists runs. split; [exact Hmap|]. split; [exact Ht|]. split; [exact Hrq|].
  apply List.Forall_forall. intros c Hc.
  apply (Permutation_in _ Hperm) in Hc. apply in_flat_map in Hc as ([now r] & Hin & Hc).
  simpl in Hc.
  apply task_changes_answer in Hc as (organization & name & commits & commit
                                      & Hp & Ha & Hcm & Hm & ->).
  simpl repository.
  split; [|split].
  - rewrite <- Hmap. apply in_map_iff. exists (now, r). split; [reflexivity | exact Hin].
  - apply sanitizeMessage_clean.
  - exists now, organization, name, commits, commit.
    split; [exact Hin|]. split; [exact Hp|]. split.
    { apply in_flat_map. exists (now, r). split; [exact Hin|]. simpl.
      rewrite (task_calls_parsed w options now r organization name Hp).
      left. reflexivity. }
    split; [exact Ha|]. split; [exact Hcm|]. split; [exact Hm | reflexivity].
Qed.

(** The run of the examples: its two changes come from the answers to the
    calls made 5 and 12 nanoseconds after the start. *)
Lemma processRepositories_rows_witness :
  exists runs,
    map snd runs = [repo_api; repo_oc]
    /\ List.Forall (fun p => (0 <= fst p)%Z) runs
    /\ Permutation
         [request_at example_options 5%Z (str "openshift") (str "api");
          request_at example_options 12%Z (str "openshift") (str "oc")]
         (calls_at example_world example_options runs)
    /\ List.Forall
         (fun c => In (repository c) [repo_api; repo_oc]
                   /\ List.Forall clean_line (Lines (Message c))
                   /\ exists now organization name commits commit,
                        In (now, repository c) runs
                        /\ parseRepositoryOrgName (repository c) = Some (organization, name)
                        /\ In (request_at example_options now organization name)
                              (calls_at example_world example_options runs)
                        /\ ListCommits example_world organization name
                             (req_opts (request_at example_options now organization name))
                           = inl commits
                        /\ In commit commits
                        /\ isMergeCommit (github.GetCommit commit) = false
                        /\ c = change_of example_world now (repository c) commit)
         (sort_Slice
            (task_changes example_world example_options 5%Z repo_api
             ++ task_changes example_world example_options 12%Z repo_oc) less_change).
Proof.
  apply (processRepositories_rows example_world example_options [repo_api; repo_oc]
                                  example_schedule (initial 0%Z)).
  vm_compute. reflexivity.
Defined.

(** ** [main] *)

Lemma payload_fold (tags : list Tag) :
  fold_left payload_step tags [] = first_occurrences (source_locations tags).
Proof.
  rewrite fold_payload_step. simpl app.
  rewrite (filter_ext (fresh []) (fun _ => true)) by reflexivity.
  induction (first_occurrences _) as [|a l IH]; simpl; [|rewrite IH]; reflexivity.
Qed.

(** [main], step by step. *)
Lemma main_eq `{SliceSorter} (w : World) (p : Process) (f : Flags)
      (sched : workpool.Schedule) (st : State) :
  main w p f sched st
  = if length (GITHUB_TOKEN p) =? 0
    then {| exit := fatal_no_token; announced := None; final := st |}
    else
      match main_since p f with
      | None => {| exit := fatal_duration (since_flag f); announced := None; final := st |}
      | Some d =>
          match release_info w (payload_flag f) with
          | inr err => {| exit := fatal_error err; announced := None; final := st |}
          | inl release =>
              let repos := first_occurrences (source_locations (Tags (Spec (Refs release)))) in
              let line := Some (length repos, BranchName (main_options f d), d) in
              match processRepositories w (main_options f d) repos sched st with
              | (inr err, st') =>
                  {| exit := fatal_error err; announced := line; final := st' |}
              | (inl changes, st') =>
                  {| exit := printed changes; announced := line; final := st' |}
              end
          end
      end.
Proof.
  unfold main, main_since, main_options, getRepositoriesFromPayload.
  destruct (length (GITHUB_TOKEN p) =? 0); [reflexivity|].
  destruct (0 <? length (since_flag f)).
  - destruct (ParseDuration p (since_flag f)) as [d|e]; [|reflexivity].
    destruct (release_info w (payload_flag f)) as [release|err]; [|reflexivity].
    rewrite payload_fold. simpl.
    destruct (0 <? length (branch_flag f)); reflexivity.
  - destruct (release_info w (payload_flag f)) as [release|err]; [|reflexivity].
    rewrite payload_fold. simpl.
    destruct (0 <? length (branch_flag f)); reflexivity.
Qed.

(** X12: without a token, with a duration that does not parse, or with a
    payload that cannot be resolved, [main] ends on a fatal log before any
    call of the remote: the state is untouched, nothing is announced and no
    table is printed. *)
Theorem main_fatal_early `{SliceSorter} (w : World) (p : Process) (f : Flags)
        (sched : workpool.Schedule) (st : State) :
  GITHUB_TOKEN p = [] \/ main_since p f = None
  \/ (exists err, release_info w (payload_flag f) = inr err) ->
  final (main w p f sched st) = st
  /\ announced (main w p f sched st) = None
  /\ forall rows, exit (main w p f sched st) <> printed rows.
Proof.
  intros Hcase. rewrite main_eq.
  destruct (GITHUB_TOKEN p) as [|c t] eqn:Et; simpl length; simpl Nat.eqb; cbv iota.
  - repeat split; discriminate.
  - destruct Hcase as [Ht | [Hs | [err He]]]; [discriminate | |].
    + rewrite Hs. repeat split; discriminate.
    + destruct (main_since p f); [rewrite He|]; repeat split; discriminate.
Qed.

Lemma main_fatal_early_witness :
  final (main example_world {| GITHUB_TOKEN := []; ParseDuration := ParseDuration example_process |}
              default_flags example_schedule (initial 0%Z)) = initial 0%Z
  /\ announced (main example_world
                     {| GITHUB_TOKEN := []; ParseDuration := ParseDuration example_process |}
                     default_flags example_schedule (initial 0%Z)) = None
  /\ forall rows,
       exit (main example_world
                  {| GITHUB_TOKEN := []; ParseDuration := ParseDuration example_process |}
                  default_flags example_schedule (initial 0%Z)) <> printed rows.
Proof.
  apply main_fatal_early. left. reflexivity.
Defined.

(** X13: when [main] prints a table, the token was set, the duration
    parsed, the payload was resolved, and the rows are the changes of the
    distinct source locations of the payload, each location fetched once,
    oldest first; the log line announced their number. *)
Theorem main_printed `{SliceSorter} (w : World) (p : Process) (f : Flags)
        (sched : workpool.Schedule) (st : State) (rows : list Change) :
  exit (main w p f sched st) = printed rows ->
  exists d release runs,
    GITHUB_TOKEN p <> []
    /\ main_since p f = Some d
    /\ release_info w (payload_flag f) = inl release
    /\ map snd runs = first_occurrences (source_locations (Tags (Spec (Refs release))))
    /\ List.NoDup (map snd runs)
    /\ Permutation rows (changes_at w (main_options f d) runs)
    /\ oldest_first rows
    /\ announced (main w p f sched st)
       = Some (length runs, BranchName (main_options f d), d).
Proof.
  rewrite main_eq.
  destruct (GITHUB_TOKEN p) as [|c t] eqn:Et; simpl length; simpl Nat.eqb; cbv iota;
    [discriminate|].
  destruct (main_since p f) as [d|]; [|discriminate].
  destruct (release_info w (payload_flag f)) as [release|err]; [|discriminate].
  cbv zeta.
  set (repos := first_occurrences (source_locations (Tags (Spec (Refs release))))).
  destruct (all_parse_dec repos) as [Hall | Hbad].
  - destruct (processRepositories_ok w (main_options f d) repos sched st Hall)
      as (out & st' & runs & E & Hmap & Hperm & Hsorted).
    rewrite E. simpl. intros [= <-].
    exists d, release, runs. split; [discriminate|]. split; [reflexivity|].
    split; [reflexivity|]. split; [exact Hmap|]. split.
    + rewrite Hmap. apply first_occurrences_NoDup.
    + split; [exact Hperm|]. split; [exact Hsorted|].
      rewrite <- Hmap, length_map. reflexivity.
  - rewrite processRepositories_eq.
    destruct (run_error w (main_options f d) _ (clock st)
                (workers_positive (Concurrency (main_options f d)))
                (length repos) repos sched (set_changes [] st)
                (Nat.le_refl _) Hbad) as (r & st' & _ & _ & Hrun).
    rewrite Hrun. discriminate.
Qed.

Lemma main_printed_witness :
  exists d release runs,
    GITHUB_TOKEN example_process <> []
    /\ main_since example_process default_flags = Some d
    /\ release_info example_world (payload_flag default_flags) = inl release
    /\ map snd runs = first_occurrences (source_locations (Tags (Spec (Refs release))))
    /\ List.NoDup (map snd runs)
    /\ Permutation
         (sort_Slice
            (task_changes example_world (main_options default_flags 86400000000000%Z)
                          5%Z repo_api
             ++ task_changes example_world (main_options default_flags 86400000000000%Z)
                             12%Z repo_oc) less_change)
         (changes_at example_world (main_options default_flags d) runs)
    /\ oldest_first
         (sort_Slice
            (task_changes example_world (main_options default_flags 86400000000000%Z)
                          5%Z repo_api
             ++ task_changes example_world (main_options default_flags 86400000000000%Z)
                             12%Z repo_oc) less_change)
    /\ announced (main example_world example_process default_flags example_schedule
                       (initial 0%Z))
       = Some (length runs, BranchName (main_options default_flags d), d).
Proof.
  apply (main_printed example_world example_process default_flags example_schedule
                      (initial 0%Z)).
  vm_compute. reflexivity.
Defined.

(** X14: a payload with one source location that is not a reference to
    the known host makes [main] end on the fatal log of such a location: no
    table is printed, whatever the other repositories have. *)
Theorem main_foreign_location `{SliceSorter} (w : World) (p : Process) (f : Flags)
        (sched : workpool.Schedule) (st : State) (d : time.Duration) (release : Release) :
  GITHUB_TOKEN p <> [] ->
  main_since p f = Some d ->
  release_info w (payload_flag f) = inl release ->
  (exists v, In v (source_locations (Tags (Spec (Refs release))))
             /\ parseRepositoryOrgName v = None) ->
  exists r,
    In r (source_locations (Tags (Spec (Refs release))))
    /\ parseRepositoryOrgName r = None
    /\ exit (main w p f sched st) = fatal_error (errUnparsable r).
Proof.
  intros Ht Hs Hr (v & Hv & Hp). rewrite main_eq, Hs, Hr.
  destruct (GITHUB_TOKEN p) as [|c t]; [congruence|]. simpl length. simpl Nat.eqb. cbv iota zeta.
  set (repos := first_occurrences (source_locations (Tags (Spec (Refs release))))).
  assert (Hbad : exists r, In r repos /\ parseRepositoryOrgName r = None).
  { exists v. split; [apply first_occurrences_In; exact Hv | exact Hp]. }
  rewrite processRepositories_eq.
  destruct (run_error w (main_options f d) _ (clock st)
              (workers_positive (Concurrency (main_options f d)))
              (length repos) repos sched (set_changes [] st)
              (Nat.le_refl _) Hbad) as (r & st' & Hin & Hpr & Hrun).
  rewrite Hrun. exists r. split; [apply first_occurrences_In; exact Hin|].
  split; [exact Hpr | reflexivity].
Qed.

Lemma main_foreign_location_witness :
  exists r,
    In r (source_locations
            (payload_tags ++ [tag_of "elsewhere" (str "https://gitlab.com/openshift/x")]))
    /\ parseRepositoryOrgName r = None
    /\ exit (main foreign_world example_process default_flags example_schedule (initial 0%Z))
       = fatal_error (errUnparsable r).
Proof.
  apply (main_foreign_location foreign_world example_process default_flags example_schedule
           (initial 0%Z) 86400000000000%Z
           {| Refs := {| Spec := {| Tags :=
                payload_tags ++ [tag_of "elsewhere" (str "https://gitlab.com/openshift/x")]
              |} |} |}).
  - discriminate.
  - vm_compute. reflexivity.
  - reflexivity.
  - exists (str "https://gitlab.com/openshift/x"). split; vm_compute; auto 10.
Defined.

Lemma NoDup_map_parse (l : list gostring) :
  List.NoDup l -> List.Forall (fun r => parseRepositoryOrgName r <> None) l ->
  List.NoDup (map parseRepositoryOrgName l).
Proof.
  induction 1 as [|a l Ha Hl IH]; intros HF; simpl; [constructor|].
  apply List.Forall_cons_iff in HF as [Hpa HF]. constructor; [|exact (IH HF)].
  intros Hin. apply in_map_iff in Hin as (b & Hb & Hinb).
  destruct (parseRepositoryOrgName a) as [[organization name]|] eqn:Ea; [|congruence].
  apply parseRepositoryOrgName_Some in Ea, Hb. apply Ha. congruence.
Qed.

(** X15: a run of [main] that prints a table has called the remote once
    for each distinct source location of the payload, and never twice for
    the same organization and name. *)
Theorem main_fetches_once `{SliceSorter} (w : World) (p : Process) (f : Flags)
        (sched : workpool.Schedule) (t0 : time.Time) (rows : list Change)
        (release : Release) :
  release_info w (payload_flag f) = inl release ->
  exit (main w p f sched (initial t0)) = printed rows ->
  List.NoDup (map target (requests (final (main w p f sched (initial t0)))))
  /\ Permutation
       (map (fun r => Some (target r))
            (requests (final (main w p f sched (initial t0)))))
       (map parseRepositoryOrgName
            (first_occurrences (source_locations (Tags (Spec (Refs release)))))).
Proof.
  intros Hr. rewrite main_eq, Hr.
  destruct (length (GITHUB_TOKEN p) =? 0); [discriminate|].
  destruct (main_since p f) as [d|]; [|discriminate]. cbv zeta.
  set (repos := first_occurrences (source_locations (Tags (Spec (Refs release))))).
  destruct (all_parse_dec repos) as [Hall | Hbad].
  - pose proof (processRepositories_ok w (main_options f d) repos sched (initial t0) Hall)
      as (out & st' & runs & E & _).
    assert (Hq : Permutation
                   (map (fun r => Some (target r))
                        (requests (snd (processRepositories w (main_options f d) repos sched
                                                            (initial t0)))))
                   (map parseRepositoryOrgName repos)).
    { rewrite processRepositories_eq.
      pose proof (run_targets w (main_options f d) _ (clock (initial t0))
                    (workers_positive (Concurrency (main_options f d)))
                    (length repos) repos sched (set_changes [] (initial t0))
                    (Nat.le_refl _) Hall) as Hq.
      simpl in Hq. destruct (workpool.run _ _ _ _ _ _) as [[err|] s1]; exact Hq. }
    rewrite E in *. simpl in *. intros _. split; [|exact Hq].
    apply (List.NoDup_map_inv Some). rewrite List.map_map.
    apply (Permutation_NoDup (Permutation_sym Hq)).
    apply NoDup_map_parse; [apply first_occurrences_NoDup | exact Hall].
  - rewrite processRepositories_eq.
    destruct (run_error w (main_options f d) _ (clock (initial t0))
                (workers_positive (Concurrency (main_options f d)))
                (length repos) repos sched (set_changes [] (initial t0))
                (Nat.le_refl _) Hbad) as (r & st' & _ & _ & Hrun).
    rewrite Hrun. discriminate.
Qed.

Lemma main_fetches_once_witness :
  List.NoDup (map target (requests (final (main example_world example_process default_flags
                                                example_schedule (initial 0%Z)))))
  /\ Permutation
       (map (fun r => Some (target r))
            (requests (final (main example_world example_process default_flags
                                   example_schedule (initial 0%Z)))))
       (map parseRepositoryOrgName (first_occurrences (source_locations payload_tags))).
Proof.
  apply (main_fetches_once example_world example_process default_flags example_schedule
           0%Z (sort_Slice
                  (task_changes example_world (main_options default_flags 86400000000000%Z)
                                5%Z repo_api
                   ++ task_changes example_world (main_options default_flags 86400000000000%Z)
                                   12%Z repo_oc) less_change)
           {| Refs := {| Spec := {| Tags := payload_tags |} |} |}).
  - reflexivity.
  - vm_compute. reflexivity.
Defined.

(** ** [getRepositoriesFromPayload], tag by tag *)

Lemma source_locations_In (tags : list Tag) (r : gostring) :
  In r (source_locations tags) <->
  r <> [] /\ exists t, In t tags /\ Annotations t !! source_location = Some r.
Proof.
  unfold source_locations. rewrite in_flat_map. split.
  - intros (t & Ht & Hr). destruct (Annotations t !! source_location) as [v|] eqn:E;
      [|destruct Hr].
    destruct v as [|c v]; simpl in Hr; [destruct Hr|].
    destruct Hr as [<-|[]]. split; [discriminate | eauto].
  - intros (Hne & t & Ht & E). exists t. split; [exact Ht|]. rewrite E.
    destruct r as [|c r]; [congruence|]. left. reflexivity.
Qed.

(** X16: the list that [getRepositoriesFromPayload] returns holds exactly
    the values that some tag carries under the source-location key, the
    empty value apart: no reference of the list is empty, and no tag with
    a value is forgotten. *)
Theorem getRepositoriesFromPayload_In (w : World) (payload : gostring) (release : Release) :
  release_info w payload = inl release ->
  exists out,
    getRepositoriesFromPayload w payload = inl out
    /\ length out <= length (Tags (Spec (Refs release)))
    /\ forall r,
         In r out <->
         r <> [] /\ exists t, In t (Tags (Spec (Refs release)))
                              /\ Annotations t !! source_location = Some r.
Proof.
  intros H. unfold getRepositoriesFromPayload. rewrite H, payload_fold.
  eexists. split; [reflexivity|]. split.
  - induction (Tags (Spec (Refs release))) as [|t tags IH]; [simpl; lia|].
    assert (Hc : source_locations (t :: tags)
                 = source_locations [t] ++ source_locations tags).
    { unfold source_locations. simpl. rewrite app_nil_r. reflexivity. }
    rewrite Hc.
    assert (Ht : source_locations [t] = [] \/ exists v, source_locations [t] = [v]).
    { unfold source_locations. simpl.
      destruct (Annotations t !! source_location) as [v|]; [|left; reflexivity].
      destruct (length v =? 0); [left; reflexivity | right; exists v; reflexivity]. }
    destruct Ht as [-> | [v ->]]; simpl.
    + lia.
    + pose proof (List.filter_length_le
                    (fun y => negb (bool_decide (y = v)))
                    (first_occurrences (source_locations tags))). lia.
  - intros r. rewrite first_occurrences_In. apply source_locations_In.
Qed.

Lemma getRepositoriesFromPayload_In_witness :
  exists out,
    getRepositoriesFromPayload example_world [] = inl out
    /\ length out <= length payload_tags
    /\ forall r,
         In r out <->
         r <> [] /\ exists t, In t payload_tags
                              /\ Annotations t !! source_location = Some r.
Proof.
  apply (getRepositoriesFromPayload_In example_world []
           {| Refs := {| Spec := {| Tags := payload_tags |} |} |}).
  reflexivity.
Defined.
